(** * ZBFT: the consensus coordination engine of [zbft.go]

    A shallow embedding of the engine's public operations ([New],
    [SetTimeout], [SetGenesis], [Step], [ProposeTxs], [BroadcastMessages])
    and of one iteration of the [Start] loop, over an explicit state record
    for the [zbft] struct.  Go channels are bounded FIFO buffers; an
    operation that would block on a channel has no result ([None]).

    The parts of the repository that [zbft.go] calls but that live in other
    files (the handlers of the loop, the futures registry, the executor) are
    modelled from the specification; every such definition says so. *)

From Stdlib Require Import ZArith String.
From stdpp Require Import base option list gmap.

Set Default Proof Using "Type".
Open Scope Z_scope.
Open Scope nat_scope.

(** Go's [error]: [None] is [nil]. *)
Definition error := option string.

(** ** External collaborators

    Types and functions of the packages [zbft.go] imports
    ([blockchain], [bcpb], [keypair], [log]).  The engine treats them as
    opaque; [HeaderHeight] reads the height of a block header,
    [HasherClone] is [Hasher.Clone], and [OutputsWith blk out] are the
    outputs a ledger serves once [blk] is added to it, when it served [out]
    before. *)
Class Collaborators := {
  Block : Type;
  BlockHeader : Type;
  Tx : Type;
  TxInput : Type;
  TxOutput : Type;
  PublicKey : Type;
  PrivateKey : Type;
  Hasher : Type;
  Logger : Type;
  BlockHeaderOf : Block → BlockHeader;
  HasherClone : Hasher → Hasher;
  HeaderHeight : BlockHeader → nat;
  OutputsWith :
    Block → (TxInput → TxOutput + error) → TxInput → TxOutput + error;
  PublicKey_eq_dec :: EqDecision PublicKey;
  PublicKey_countable :: Countable PublicKey;
  Tx_eq_dec :: EqDecision Tx;
}.

(** [time.Duration] and [time.Time], both counted in nanoseconds. *)
Definition Duration := Z.
Definition Time := Z.

Section Types.
Context `{Collaborators}.

Definition HeightOf (b : Block) : nat := HeaderHeight (BlockHeaderOf b).

(** [TxStore]: the read-only interface, one method. *)
Record TxStore := { GetTXO : TxInput → TxOutput + error }.

(** The calls the engine makes on the [FSM] interface, in order. *)
Inductive FSMCall :=
| CallInit (store : TxStore)
| CallPrepare (txs : list Tx)
| CallExecute (txs : list Tx) (block : BlockHeader) (leader : bool).

(** [FSM]: an implementation is given by the result of [Prepare] and of
    [Execute] after the calls made on it so far ([Init] returns nothing). *)
Record FSM := {
  Prepare : list FSMCall → list Tx → error;
  Execute : list FSMCall → list Tx → BlockHeader → bool → error;
}.

Definition BlockValidator := Block → error.

(** [blockchain.Blockchain], as far as the engine uses it: the finalized
    blocks with the height each was finalized at, the validator hook, the
    outputs it serves through [GetTXO], which follow the blocks it holds,
    and its hasher. *)
Record Blockchain := {
  bcBlocks : list (nat * Block);
  bcValidator : option BlockValidator;
  bcGetTXO : TxInput → TxOutput + error;
  bcHasher : Hasher;
}.

Definition SetBlockValidator (v : BlockValidator) (b : Blockchain) : Blockchain :=
  {| bcBlocks := bcBlocks b; bcValidator := Some v;
     bcGetTXO := bcGetTXO b; bcHasher := bcHasher b |}.

(** A block enters the ledger: the outputs served from then on are those
    of the ledger with the block. *)
Definition appendBlock (h : nat) (blk : Block) (b : Blockchain) : Blockchain :=
  {| bcBlocks := bcBlocks b ++ [(h, blk)]; bcValidator := bcValidator b;
     bcGetTXO := OutputsWith blk (bcGetTXO b); bcHasher := bcHasher b |}.

(** A [*blockchain.Blockchain] passed where a [TxStore] is expected: only
    [GetTXO] remains reachable. *)
Definition asTxStore (b : Blockchain) : TxStore := {| GetTXO := bcGetTXO b |}.

Record KeyPair := { kpPublicKey : PublicKey; kpPrivateKey : PrivateKey }.

(** [Config] *)
Record Config := {
  cfgKeyPair : KeyPair;
  cfgBlockchain : Blockchain;
  cfgFSM : FSM;
  cfgLogger : Logger;
}.

(** [zbftpb.Message]: the fields [zbft.go] sets.  [Block] is a pointer. *)
Inductive MessageType :=
| Message_BOOTSTRAP | Message_PROPOSE | Message_PREPARE | Message_COMMIT.

#[global] Instance MessageType_eq_dec : EqDecision MessageType.
Proof. solve_decision. Defined.

Record Message := {
  msgType : MessageType;
  msgBlock : option Block;
  msgTxs : list Tx;
  msgFrom : PublicKey;
}.

(** [configChange{typ, data}]; the one kind there is carries a duration. *)
Inductive configChangeType := confChangeTimeout.
Record configChange := { typ : configChangeType; data : Duration }.

(** [execBlock]: a finalized block on its way to the executor. *)
Record execBlock := {
  ebBlock : Block;
  ebTxs : list Tx;
  ebLeader : bool;
}.

(** ** Channels: [make(chan T, n)] *)
Record chan (A : Type) := { cap : nat; buf : list A }.
#[global] Arguments cap {A} _.
#[global] Arguments buf {A} _.

Definition make_chan (A : Type) (n : nat) : chan A := {| cap := n; buf := [] |}.

(** [c <- v]: appends when there is room, blocks otherwise. *)
Definition chan_send {A} (v : A) (c : chan A) : option (chan A) :=
  if decide (length (buf c) < cap c)
  then Some {| cap := cap c; buf := buf c ++ [v] |}
  else None.

(** [<-c]: takes the oldest element, blocks on an empty channel. *)
Definition chan_recv {A} (c : chan A) : option (A * chan A) :=
  match buf c with
  | [] => None
  | v :: rest => Some (v, {| cap := cap c; buf := rest |})
  end.

(** ** The round state machine (data) *)
Inductive Phase := PROPOSE | PREPARE | COMMIT | FINALIZED | TIMED_OUT.

#[global] Instance Phase_eq_dec : EqDecision Phase.
Proof. solve_decision. Defined.

(** Modelled from the spec: the [Round] of section 3 (the deadline is held
    by the timer); [number] counts the retries at this height. *)
Record Round := {
  height : nat;
  number : nat;
  phase : Phase;
  candidate : option (Block * list Tx);
  prepareVotes : gset PublicKey;
  commitVotes : gset PublicKey;
}.

Definition newRound (h n : nat) : Round :=
  {| height := h; number := n; phase := PROPOSE; candidate := None;
     prepareVotes := ∅; commitVotes := ∅ |}.

(** Modelled from the spec: the state of a [Future] (section 3) and the
    Result Registry (section 4.2), batches identified by their content.
    A [Future] handle is the position of its entry. *)
Inductive FutState := PENDING | COMMITTED | FAILED.

#[global] Instance FutState_eq_dec : EqDecision FutState.
Proof. solve_decision. Defined.

Definition Future := nat.

(** The round timer: armed with a deadline, or stopped. *)
Record Timer := { deadline : option Time }.

(** ** The [zbft] struct

    The fields [New] sets, the fields [init] sets ([futs], [txq], [timer]),
    the round state of the loop ([round], [pending], [failures]), and two
    observers of the environment: the clock [now] and the calls made on
    the FSM so far. *)
Record zbft := {
  bc : Blockchain;
  hasher : Hasher;
  kp : KeyPair;
  roundTimeout : Duration;
  msgBcast : chan Message;
  msgIn : chan Message;
  txCollect : chan (list Tx);
  exec : chan execBlock;
  confCh : chan configChange;
  fsm : FSM;
  log : Logger;
  futs : list (list Tx * FutState);
  txq : chan (list Tx);
  timer : Timer;
  round : Round;
  pending : list (list Tx);
  failures : list error;
  now : Time;
  fsmCalls : list FSMCall;
}.

(** Field updates ([z.f = v]). *)
Definition set_bc (v : Blockchain) (z : zbft) : zbft :=
  {| bc := v; hasher := hasher z; kp := kp z; roundTimeout := roundTimeout z;
     msgBcast := msgBcast z; msgIn := msgIn z; txCollect := txCollect z; exec :=
     exec z; confCh := confCh z; fsm := fsm z; log := log z; futs := futs z; txq
     := txq z; timer := timer z; round := round z; pending := pending z; failures
     := failures z; now := now z; fsmCalls := fsmCalls z |}.

Definition set_roundTimeout (v : Duration) (z : zbft) : zbft :=
  {| bc := bc z; hasher := hasher z; kp := kp z; roundTimeout := v; msgBcast
     := msgBcast z; msgIn := msgIn z; txCollect := txCollect z; exec := exec z;
     confCh := confCh z; fsm := fsm z; log := log z; futs := futs z; txq := txq
     z; timer := timer z; round := round z; pending := pending z; failures :=
     failures z; now := now z; fsmCalls := fsmCalls z |}.

Definition set_msgBcast (v : chan Message) (z : zbft) : zbft :=
  {| bc := bc z; hasher := hasher z; kp := kp z; roundTimeout := roundTimeout
     z; msgBcast := v; msgIn := msgIn z; txCollect := txCollect z; exec := exec
     z; confCh := confCh z; fsm := fsm z; log := log z; futs := futs z; txq :=
     txq z; timer := timer z; round := round z; pending := pending z; failures :=
     failures z; now := now z; fsmCalls := fsmCalls z |}.

Definition set_msgIn (v : chan Message) (z : zbft) : zbft :=
  {| bc := bc z; hasher := hasher z; kp := kp z; roundTimeout := roundTimeout
     z; msgBcast := msgBcast z; msgIn := v; txCollect := txCollect z; exec :=
     exec z; confCh := confCh z; fsm := fsm z; log := log z; futs := futs z; txq
     := txq z; timer := timer z; round := round z; pending := pending z; failures
     := failures z; now := now z; fsmCalls := fsmCalls z |}.

Definition set_txCollect (v : chan (list Tx)) (z : zbft) : zbft :=
  {| bc := bc z; hasher := hasher z; kp := kp z; roundTimeout := roundTimeout
     z; msgBcast := msgBcast z; msgIn := msgIn z; txCollect := v; exec := exec z;
     confCh := confCh z; fsm := fsm z; log := log z; futs := futs z; txq := txq
     z; timer := timer z; round := round z; pending := pending z; failures :=
     failures z; now := now z; fsmCalls := fsmCalls z |}.

Definition set_exec (v : chan execBlock) (z : zbft) : zbft :=
  {| bc := bc z; hasher := hasher z; kp := kp z; roundTimeout := roundTimeout
     z; msgBcast := msgBcast z; msgIn := msgIn z; txCollect := txCollect z; exec
     := v; confCh := confCh z; fsm := fsm z; log := log z; futs := futs z; txq :=
     txq z; timer := timer z; round := round z; pending := pending z; failures :=
     failures z; now := now z; fsmCalls := fsmCalls z |}.

Definition set_confCh (v : chan configChange) (z : zbft) : zbft :=
  {| bc := bc z; hasher := hasher z; kp := kp z; roundTimeout := roundTimeout
     z; msgBcast := msgBcast z; msgIn := msgIn z; txCollect := txCollect z; exec
     := exec z; confCh := v; fsm := fsm z; log := log z; futs := futs z; txq :=
     txq z; timer := timer z; round := round z; pending := pending z; failures :=
     failures z; now := now z; fsmCalls := fsmCalls z |}.

Definition set_futs (v : list (list Tx * FutState)) (z : zbft) : zbft :=
  {| bc := bc z; hasher := hasher z; kp := kp z; roundTimeout := roundTimeout
     z; msgBcast := msgBcast z; msgIn := msgIn z; txCollect := txCollect z; exec
     := exec z; confCh := confCh z; fsm := fsm z; log := log z; futs := v; txq :=
     txq z; timer := timer z; round := round z; pending := pending z; failures :=
     failures z; now := now z; fsmCalls := fsmCalls z |}.

Definition set_txq (v : chan (list Tx)) (z : zbft) : zbft :=
  {| bc := bc z; hasher := hasher z; kp := kp z; roundTimeout := roundTimeout
     z; msgBcast := msgBcast z; msgIn := msgIn z; txCollect := txCollect z; exec
     := exec z; confCh := confCh z; fsm := fsm z; log := log z; futs := futs z;
     txq := v; timer := timer z; round := round z; pending := pending z; failures
     := failures z; now := now z; fsmCalls := fsmCalls z |}.

Definition set_timer (v : Timer) (z : zbft) : zbft :=
  {| bc := bc z; hasher := hasher z; kp := kp z; roundTimeout := roundTimeout
     z; msgBcast := msgBcast z; msgIn := msgIn z; txCollect := txCollect z; exec
     := exec z; confCh := confCh z; fsm := fsm z; log := log z; futs := futs z;
     txq := txq z; timer := v; round := round z; pending := pending z; failures
     := failures z; now := now z; fsmCalls := fsmCalls z |}.

Definition set_round (v : Round) (z : zbft) : zbft :=
  {| bc := bc z; hasher := hasher z; kp := kp z; roundTimeout := roundTimeout
     z; msgBcast := msgBcast z; msgIn := msgIn z; txCollect := txCollect z; exec
     := exec z; confCh := confCh z; fsm := fsm z; log := log z; futs := futs z;
     txq := txq z; timer := timer z; round := v; pending := pending z; failures
     := failures z; now := now z; fsmCalls := fsmCalls z |}.

Definition set_pending (v : list (list Tx)) (z : zbft) : zbft :=
  {| bc := bc z; hasher := hasher z; kp := kp z; roundTimeout := roundTimeout
     z; msgBcast := msgBcast z; msgIn := msgIn z; txCollect := txCollect z; exec
     := exec z; confCh := confCh z; fsm := fsm z; log := log z; futs := futs z;
     txq := txq z; timer := timer z; round := round z; pending := v; failures :=
     failures z; now := now z; fsmCalls := fsmCalls z |}.

Definition set_failures (v : list error) (z : zbft) : zbft :=
  {| bc := bc z; hasher := hasher z; kp := kp z; roundTimeout := roundTimeout
     z; msgBcast := msgBcast z; msgIn := msgIn z; txCollect := txCollect z; exec
     := exec z; confCh := confCh z; fsm := fsm z; log := log z; futs := futs z;
     txq := txq z; timer := timer z; round := round z; pending := pending z;
     failures := v; now := now z; fsmCalls := fsmCalls z |}.

Definition set_now (v : Time) (z : zbft) : zbft :=
  {| bc := bc z; hasher := hasher z; kp := kp z; roundTimeout := roundTimeout
     z; msgBcast := msgBcast z; msgIn := msgIn z; txCollect := txCollect z; exec
     := exec z; confCh := confCh z; fsm := fsm z; log := log z; futs := futs z;
     txq := txq z; timer := timer z; round := round z; pending := pending z;
     failures := failures z; now := v; fsmCalls := fsmCalls z |}.

Definition set_fsmCalls (v : list FSMCall) (z : zbft) : zbft :=
  {| bc := bc z; hasher := hasher z; kp := kp z; roundTimeout := roundTimeout
     z; msgBcast := msgBcast z; msgIn := msgIn z; txCollect := txCollect z; exec
     := exec z; confCh := confCh z; fsm := fsm z; log := log z; futs := futs z;
     txq := txq z; timer := timer z; round := round z; pending := pending z;
     failures := failures z; now := now z; fsmCalls := v |}.

End Types.

(** ** Parts of the repository outside [zbft.go]

    Constants and policies the engine uses that are declared in other files
    of the repository, or that the specification leaves to the implementer:
    the default round timeout, the default block validator, the timeout
    error, the capacity of the intake queue [txq], the quorum threshold, the
    leader of a round (by height and retry number), the validation of a
    proposed block against the ledger, and the construction of a candidate
    block from a batch. *)
Class Policy `{Collaborators} := {
  defaultRoundTimeout : Duration;
  defaultBlockValidator : BlockValidator;
  errTimedOut : error;
  txqSize : nat;
  quorum : nat;
  leaderOf : nat → nat → PublicKey;
  validCandidate : list (nat * Block) → Block → list Tx → bool;
  makeBlock : list (nat * Block) → nat → list Tx → Block;
}.

Section Engine.
Context `{Policy}.

(** ** The monad of engine operations

    An operation reads and updates the [zbft] state and returns a value, or
    blocks ([None]) on a full or empty channel. *)
Definition M (A : Type) : Type := zbft → option (A * zbft).

#[global] Instance M_ret : MRet M := λ A (a : A) z, Some (a, z).
#[global] Instance M_bind : MBind M := λ A B (f : A → M B) (m : M A) z,
  match m z with
  | Some (a, z') => f a z'
  | None => None
  end.

Definition get : M zbft := λ z, Some (z, z).
Definition blocked {A} : M A := λ _, None.
Definition modify (f : zbft → zbft) : M unit := λ z, Some (tt, f z).

(** [z.ch <- v] and [<-z.ch] on a channel field of the struct. *)
Definition send {A} (ch : zbft → chan A) (upd : chan A → zbft → zbft)
    (v : A) : M unit :=
  λ z, match chan_send v (ch z) with
       | Some c => Some (tt, upd c z)
       | None => None
       end.

Definition recv {A} (ch : zbft → chan A) (upd : chan A → zbft → zbft) : M A :=
  λ z, match chan_recv (ch z) with
       | Some (v, c) => Some (v, upd c z)
       | None => None
       end.

(** ** Helpers of other files that the public operations call *)

(** Modelled from the spec: [futs.addTxsActive] is absent from the sources;
    it is [register(batch) -> handle] of section 4.2, which creates a
    PENDING future for the batch and returns its handle. *)
Definition addTxsActive (txs : list Tx) : M Future :=
  z ← get;
  modify (set_futs (futs z ++ [(txs, PENDING)]));;
  mret (length (futs z)).

(** Modelled from the spec: [broadcast] is absent from the sources; it puts
    the message on the bounded Outbound Broadcast Queue (sections 2 and
    4.4), which [BroadcastMessages] exposes. *)
Definition broadcast (msg : Message) : M unit := send msgBcast set_msgBcast msg.

(** Modelled from the spec: [init] is absent from the sources; it creates
    what [New] leaves unset: an empty Result Registry, the intake queue of
    ready batches, a stopped round timer, and the first round, at the
    height that follows the blocks the ledger already holds. *)
Definition init (z : zbft) : zbft :=
  set_round (newRound (length (bcBlocks (bc z))) 0)
    (set_timer {| deadline := None |}
       (set_txq (make_chan (list Tx) txqSize) (set_futs [] z))).

(** ** The public operations of [zbft.go] *)

(** [New]: the struct literal (fields it does not name hold their zero
    value; a nil channel is one of capacity 0), then [SetBlockValidator],
    [init] and the FSM's [Init] on the blockchain as a [TxStore]. *)
Definition New (conf : Config) : zbft :=
  let z := {|
    bc := cfgBlockchain conf;
    hasher := HasherClone (bcHasher (cfgBlockchain conf));
    kp := cfgKeyPair conf;
    roundTimeout := defaultRoundTimeout;
    msgBcast := make_chan Message 16;
    msgIn := make_chan Message 16;
    txCollect := make_chan (list Tx) 16;
    exec := make_chan execBlock 16;
    confCh := make_chan configChange 8;
    fsm := cfgFSM conf;
    log := cfgLogger conf;
    futs := [];
    txq := make_chan (list Tx) 0;
    timer := {| deadline := None |};
    round := newRound 0 0;
    pending := [];
    failures := [];
    now := 0%Z;
    fsmCalls := [];
  |} in
  let z := set_bc (SetBlockValidator defaultBlockValidator (bc z)) z in
  let z := init z in
  set_fsmCalls (fsmCalls z ++ [CallInit (asTxStore (bc z))]) z.

Definition SetTimeout (d : Duration) : M unit :=
  send confCh set_confCh {| typ := confChangeTimeout; data := d |}.

Definition SetGenesis (blk : option Block) (txs : list Tx) : M Future :=
  fut ← addTxsActive txs;
  z ← get;
  let msg := {| msgType := Message_BOOTSTRAP; msgBlock := blk;
                msgTxs := txs; msgFrom := kpPublicKey (kp z) |} in
  send msgIn set_msgIn msg;;
  broadcast msg;;
  mret fut.

Definition Step (msg : Message) : M unit := send msgIn set_msgIn msg.

Definition ProposeTxs (txs : list Tx) : M Future :=
  fut ← addTxsActive txs;
  send txCollect set_txCollect txs;;
  mret fut.

Definition BroadcastMessages (z : zbft) : chan Message := msgBcast z.


(** ** The handlers of the core loop

    [handleReadyTxs], [handleMessage], [handleErrorAndReset] and
    [handleConfigChange] are called by [Start] and defined in other files. *)

Definition self (z : zbft) : PublicKey := kpPublicKey (kp z).

Definition finalizedAt (h : nat) (z : zbft) : bool :=
  bool_decide (h ∈ (bcBlocks (bc z)).*1).

(** Modelled from the spec: arming the single-shot round timer (section 2):
    the deadline is the round timeout configured when the timer is reset. *)
Definition resetTimer : M unit :=
  modify (λ z, set_timer {| deadline := Some (now z + roundTimeout z)%Z |} z).

(** Modelled from the spec: the PROPOSE rule of section 4.1.  A proposal
    counts when it comes from the leader of the current round, for the
    height of that round, while the round awaits one, and the candidate is
    valid; the node then emits its PREPARE vote and records it.  Anything
    else is rejected locally. *)
Definition handlePropose (msg : Message) : M unit :=
  z ← get;
  let r := round z in
  match msgBlock msg with
  | Some blk =>
      if bool_decide (HeightOf blk = height r ∧ phase r = PROPOSE ∧
                      msgFrom msg = leaderOf (height r) (number r))
         && validCandidate (bcBlocks (bc z)) blk (msgTxs msg)
      then
        broadcast {| msgType := Message_PREPARE; msgBlock := Some blk;
                     msgTxs := msgTxs msg; msgFrom := self z |};;
        modify (set_round
          {| height := height r; number := number r; phase := PREPARE;
             candidate := Some (blk, msgTxs msg);
             prepareVotes := {[ self z ]} ∪ prepareVotes r;
             commitVotes := commitVotes r |});;
        resetTimer
      else mret tt
  | None => mret tt
  end.

(** Modelled from the spec: packaging a ready batch into a PROPOSE message
    (section 4.1, item 1); the leader handles its own proposal like its
    peers do. *)
Definition propose (txs : list Tx) : M unit :=
  z ← get;
  let blk := makeBlock (bcBlocks (bc z)) (height (round z)) txs in
  let msg := {| msgType := Message_PROPOSE; msgBlock := Some blk;
                msgTxs := txs; msgFrom := self z |} in
  broadcast msg;;
  handlePropose msg.

(** Modelled from the spec: a batch buffered "for the next round it leads"
    (section 4.1, item 1) is proposed when this node leads the current
    round. *)
Definition proposeBuffered : M unit :=
  z ← get;
  match pending z with
  | txs :: rest =>
      if bool_decide (leaderOf (height (round z)) (number (round z)) = self z)
      then modify (set_pending rest);; propose txs
      else mret tt
  | [] => mret tt
  end.

(** Modelled from the spec: a new current round: no candidate, no votes,
    the timer reset. *)
Definition startRound (h n : nat) : M unit :=
  modify (set_round (newRound h n));;
  resetTimer;;
  proposeBuffered.

(** Modelled from the spec: finalization.  The block enters the ledger at
    height [h], is pushed on the bounded Execution Handoff Queue, and the
    engine moves to the next height. *)
Definition finalize (h : nat) (blk : Block) (txs : list Tx) (leader : bool)
    : M unit :=
  modify (λ z, set_bc (appendBlock h blk (bc z)) z);;
  send exec set_exec {| ebBlock := blk; ebTxs := txs; ebLeader := leader |};;
  startRound (S h) 0.

(** Modelled from the spec: the BOOTSTRAP rule of section 4.1: accepted only
    when no finalized block exists for height 0; no vote is consulted. *)
Definition handleBootstrap (msg : Message) : M unit :=
  z ← get;
  match msgBlock msg with
  | Some blk =>
      if finalizedAt 0 z then mret tt
      else finalize 0 blk (msgTxs msg) (bool_decide (msgFrom msg = self z))
  | None => mret tt
  end.

(** Modelled from the spec: the PREPARE rule of section 4.1: the sender's
    vote is recorded; at quorum the node emits COMMIT and the phase
    advances. *)
Definition handlePrepare (msg : Message) : M unit :=
  z ← get;
  let r := round z in
  match msgBlock msg with
  | Some blk =>
      if bool_decide (HeightOf blk = height r ∧ phase r = PREPARE) then
        let votes := {[ msgFrom msg ]} ∪ prepareVotes r in
        if decide (quorum ≤ size votes) then
          broadcast {| msgType := Message_COMMIT; msgBlock := Some blk;
                       msgTxs := msgTxs msg; msgFrom := self z |};;
          modify (set_round
            {| height := height r; number := number r; phase := COMMIT;
               candidate := candidate r; prepareVotes := votes;
               commitVotes := commitVotes r |});;
          resetTimer
        else
          modify (set_round
            {| height := height r; number := number r; phase := phase r;
               candidate := candidate r; prepareVotes := votes;
               commitVotes := commitVotes r |})
      else mret tt
  | None => mret tt
  end.

(** Modelled from the spec: the COMMIT rule of section 4.1: commit votes are
    recorded; at quorum the round is finalized with its candidate. *)
Definition handleCommit (msg : Message) : M unit :=
  z ← get;
  let r := round z in
  match msgBlock msg with
  | Some blk =>
      if bool_decide (HeightOf blk = height r ∧ phase r = COMMIT) then
        let votes := {[ msgFrom msg ]} ∪ commitVotes r in
        if decide (quorum ≤ size votes) then
          match candidate r with
          | Some (cb, txs) =>
              finalize (height r) cb txs
                (bool_decide (leaderOf (height r) (number r) = self z))
          | None => mret tt
          end
        else
          modify (set_round
            {| height := height r; number := number r; phase := phase r;
               candidate := candidate r; prepareVotes := prepareVotes r;
               commitVotes := votes |})
      else mret tt
  | None => mret tt
  end.

(** Modelled from the spec: dispatch by kind (section 4.1, item 2).  A
    message that names no block, or a block of a height already finalized,
    is discarded. *)
Definition handleMessage (msg : Message) : M unit :=
  match msgType msg with
  | Message_BOOTSTRAP => handleBootstrap msg
  | ty =>
      z ← get;
      match msgBlock msg with
      | Some blk =>
          if finalizedAt (HeightOf blk) z then mret tt
          else match ty with
               | Message_PROPOSE => handlePropose msg
               | Message_PREPARE => handlePrepare msg
               | _ => handleCommit msg
               end
      | None => mret tt
      end
  end.

(** Modelled from the spec: ready batches (section 4.1, item 1): proposed
    if this node leads the current round and the round awaits a proposal,
    buffered otherwise. *)
Definition handleReadyTxs (txs : list Tx) : M unit :=
  z ← get;
  let r := round z in
  if bool_decide (leaderOf (height r) (number r) = self z ∧ phase r = PROPOSE)
  then propose txs
  else modify (set_pending (pending z ++ [txs])).

(** Modelled from the spec: round timer expiry (section 4.1, item 3): the
    failure is recorded and the round is retried at the same height with
    the next round number; starting the round resets the timer. *)
Definition handleErrorAndReset (err : error) : M unit :=
  modify (λ z, set_failures (failures z ++ [err]) z);;
  z ← get;
  startRound (height (round z)) (S (number (round z))).

(** Modelled from the spec: configuration changes (section 4.1, item 4):
    the round timeout takes the new value; the timer is left alone. *)
Definition handleConfigChange (cch : configChange) : M unit :=
  match typ cch with
  | confChangeTimeout => modify (set_roundTimeout (data cch))
  end.

(** ** [Start]: one iteration of the [select] loop *)

(** The four cases of the [select], in the order of the source. *)
Inductive Source := SrcTxq | SrcMsgIn | SrcTimer | SrcConfCh.

#[global] Instance Source_eq_dec : EqDecision Source.
Proof. solve_decision. Defined.

Definition sources : list Source := [SrcTxq; SrcMsgIn; SrcTimer; SrcConfCh].

(** [<-z.timer.C]: the timer delivers once its deadline has passed, and is
    stopped from then on until it is reset. *)
Definition recvTimer : M Time :=
  z ← get;
  match deadline (timer z) with
  | Some d =>
      if decide (d ≤ now z)%Z
      then modify (set_timer {| deadline := None |});; mret (now z)
      else blocked
  | None => blocked
  end.

(** One pass through [select]: [s] is the case that fires. *)
Definition Start_select (s : Source) : M unit :=
  match s with
  | SrcTxq => txs ← recv txq set_txq; handleReadyTxs txs
  | SrcMsgIn => msg ← recv msgIn set_msgIn; handleMessage msg
  | SrcTimer => recvTimer;; handleErrorAndReset errTimedOut
  | SrcConfCh => cch ← recv confCh set_confCh; handleConfigChange cch
  end.

(** [Start]: [go z.startExecing()] gives the executor a task of its own
    (the step [LExec] below); the [for] loop is a sequence of passes, one
    for each case that fires. *)
Fixpoint Start (fired : list Source) : M unit :=
  match fired with
  | [] => mret tt
  | s :: rest => Start_select s;; Start rest
  end.

(** ** The other tasks *)

(** Modelled from the spec: [resolve(batch, outcome)] of section 4.2: only
    a PENDING future of the batch changes state. *)
Definition resolve (txs : list Tx) (outcome : FutState) : M unit :=
  modify (λ z, set_futs
    ((λ f : list Tx * FutState,
        if bool_decide (f.1 = txs ∧ f.2 = PENDING) then (f.1, outcome) else f)
       <$> futs z) z).

Definition fsmCalled (c : FSMCall) : M unit :=
  modify (λ z, set_fsmCalls (fsmCalls z ++ [c]) z).

(** Modelled from the spec: one iteration of [startExecing], the Executor
    Task of section 4.3: the oldest finalized block is taken, the FSM's
    [Prepare] then [Execute] are called, and the futures of the batch are
    resolved COMMITTED on success and FAILED on an error. *)
Definition execOne : M unit :=
  eb ← recv exec set_exec;
  z ← get;
  let e := Prepare (fsm z) (fsmCalls z) (ebTxs eb) in
  fsmCalled (CallPrepare (ebTxs eb));;
  match e with
  | Some _ => resolve (ebTxs eb) FAILED
  | None =>
      z ← get;
      let hdr := BlockHeaderOf (ebBlock eb) in
      let e := Execute (fsm z) (fsmCalls z) (ebTxs eb) hdr (ebLeader eb) in
      fsmCalled (CallExecute (ebTxs eb) hdr (ebLeader eb));;
      resolve (ebTxs eb) (match e with Some _ => FAILED | None => COMMITTED end)
  end.

(** Modelled from the spec: the transaction intake ("batch enters the Core
    Loop's transaction intake", section 2): a submitted batch moves from
    [txCollect] to the queue [txq] the loop selects on. *)
Definition intakeOne : M unit :=
  txs ← recv txCollect set_txCollect;
  send txq set_txq txs.

(** ** Executions

    What can happen to an engine, one atomic step at a time: a caller runs a
    public operation (or, preempted, a part of one), the loop makes a pass,
    the executor or the intake makes one, the network layer takes a message
    from [BroadcastMessages], or time passes. *)
Inductive Label :=
| LSetTimeout (d : Duration)
| LSetGenesis (blk : option Block) (txs : list Tx)
| LStep (msg : Message)
| LProposeTxs (txs : list Tx)
| LAddTxsActive (txs : list Tx)
| LCollect (txs : list Tx)
| LBroadcast (msg : Message)
| LSelect (s : Source)
| LExec
| LIntake
| LNetwork
| LTick (t : Time).

Definition step (l : Label) : M unit :=
  match l with
  | LSetTimeout d => SetTimeout d
  | LSetGenesis blk txs => SetGenesis blk txs;; mret tt
  | LStep msg => Step msg
  | LProposeTxs txs => ProposeTxs txs;; mret tt
  | LAddTxsActive txs => addTxsActive txs;; mret tt
  | LCollect txs => send txCollect set_txCollect txs
  | LBroadcast msg => broadcast msg
  | LSelect s => Start_select s
  | LExec => execOne
  | LIntake => intakeOne
  | LNetwork => recv msgBcast set_msgBcast;; mret tt
  | LTick t => modify (λ z, set_now (Z.max (now z) t) z)
  end.

Fixpoint run (ls : list Label) (z : zbft) : option zbft :=
  match ls with
  | [] => Some z
  | l :: ls' =>
      match step l z with
      | Some (_, z') => run ls' z'
      | None => None
      end
  end.

(** The consensus state: what section 5 reserves to the core loop. *)
Definition consensus (z : zbft)
    : Round * Duration * Timer * Blockchain * list (list Tx) * list error :=
  (round z, roundTimeout z, timer z, bc z, pending z, failures z).

End Engine.

(** * What the properties are stated with *)

Section Statements.
Context `{Policy}.

(** Whenever the operation [m] returns, the state it started from and the
    state it leaves are related by [R]. *)
Definition follows {A} (R : relation zbft) (m : M A) : Prop :=
  ∀ z a z', m z = Some (a, z') → R z z'.

(** The operation leaves the observation [obs] of the state as it was. *)
Definition same {B} (obs : zbft → B) : relation zbft :=
  λ z z', obs z' = obs z.

(** The ledger of [z'] extends the ledger of [z] by blocks finalized at
    heights that are new and pairwise different. *)
Definition grows : relation zbft := λ z z',
  ∃ l, bcBlocks (bc z') = bcBlocks (bc z) ++ l ∧
       NoDup l.*1 ∧ ∀ h, h ∈ l.*1 → h ∉ (bcBlocks (bc z)).*1.

(** A call other than [Init]. *)
Definition notInit (c : FSMCall) : Prop := ∀ s, c ≠ CallInit s.

(** The FSM has been called some more, and never on [Init]. *)
Definition callsGrow : relation zbft := λ z z',
  ∃ cs, fsmCalls z' = fsmCalls z ++ cs ∧ Forall notInit cs.

(** The steps that are passes of the core loop. *)
Definition isSelect (l : Label) : bool :=
  match l with LSelect _ => true | _ => false end.

(** What one pass through [select] does, case by case: one receive, from
    the source of the case, and one call, of the handler of that case, on
    the value received. *)
Definition onePass (s : Source) (z z' : zbft) : Prop :=
  match s with
  | SrcTxq => ∃ txs c,
      chan_recv (txq z) = Some (txs, c) ∧
      handleReadyTxs txs (set_txq c z) = Some (tt, z')
  | SrcMsgIn => ∃ msg c,
      chan_recv (msgIn z) = Some (msg, c) ∧
      handleMessage msg (set_msgIn c z) = Some (tt, z')
  | SrcTimer => ∃ d,
      deadline (timer z) = Some d ∧ (d ≤ now z)%Z ∧
      handleErrorAndReset errTimedOut (set_timer {| deadline := None |} z)
        = Some (tt, z')
  | SrcConfCh => ∃ cch c,
      chan_recv (confCh z) = Some (cch, c) ∧
      handleConfigChange cch (set_confCh c z) = Some (tt, z')
  end.

(** The steps that are calls of [SetTimeout], [SetGenesis], [Step] or
    [ProposeTxs]. *)
Definition isPublic (l : Label) : bool :=
  match l with
  | LSetTimeout _ | LSetGenesis _ _ | LStep _ | LProposeTxs _ => true
  | _ => false
  end.

(** Everything in the struct but the four channels callers write to and the
    futures registry. *)
Definition untouched (z : zbft) :=
  (bc z, hasher z, kp z, roundTimeout z, exec z, fsm z, log z, txq z,
   timer z, round z, pending z, failures z, now z, fsmCalls z).

(** The channel [c] with [v] enqueued. *)
Definition push {A} (v : A) (c : chan A) : chan A :=
  {| cap := cap c; buf := buf c ++ [v] |}.

(** The value [SetTimeout d] puts on [confCh]. *)
Definition timeoutChange (d : Duration) : configChange :=
  {| typ := confChangeTimeout; data := d |}.

(** The message [SetGenesis blk txs] builds on the engine [z]. *)
Definition bootstrapOf (z : zbft) (blk : option Block) (txs : list Tx) : Message :=
  {| msgType := Message_BOOTSTRAP; msgBlock := blk; msgTxs := txs;
     msgFrom := kpPublicKey (kp z) |}.

(** The effect of each public call on the channels and on the registry.
    For the two calls that return a future, [z1] is the state in between:
    the future is registered and nothing is enqueued yet. *)
Definition callEffect (l : Label) (z z' : zbft) : Prop :=
  match l with
  | LSetTimeout d =>
      confCh z' = push (timeoutChange d) (confCh z) ∧
      msgIn z' = msgIn z ∧ txCollect z' = txCollect z ∧
      msgBcast z' = msgBcast z ∧ futs z' = futs z
  | LStep msg =>
      msgIn z' = push msg (msgIn z) ∧
      confCh z' = confCh z ∧ txCollect z' = txCollect z ∧
      msgBcast z' = msgBcast z ∧ futs z' = futs z
  | LProposeTxs txs =>
      futs z' = futs z ++ [(txs, PENDING)] ∧
      txCollect z' = push txs (txCollect z) ∧
      msgIn z' = msgIn z ∧ confCh z' = confCh z ∧ msgBcast z' = msgBcast z ∧
      ∃ z1, addTxsActive txs z = Some (length (futs z), z1) ∧
            txCollect z1 = txCollect z ∧
            send txCollect set_txCollect txs z1 = Some (tt, z')
  | LSetGenesis blk txs =>
      futs z' = futs z ++ [(txs, PENDING)] ∧
      msgIn z' = push (bootstrapOf z blk txs) (msgIn z) ∧
      msgBcast z' = push (bootstrapOf z blk txs) (msgBcast z) ∧
      confCh z' = confCh z ∧ txCollect z' = txCollect z ∧
      ∃ z1, addTxsActive txs z = Some (length (futs z), z1) ∧
            msgIn z1 = msgIn z ∧ msgBcast z1 = msgBcast z ∧
            (Step (bootstrapOf z blk txs);; broadcast (bootstrapOf z blk txs)) z1
              = Some (tt, z')
  | _ => True
  end.

(** What the proposal of a buffered batch leaves alone: the height of the
    round, its commit votes, the ledger and the handoff queue. *)
Definition afterGenesis (z : zbft) : nat * gset PublicKey * Blockchain * chan execBlock :=
  (height (round z), commitVotes (round z), bc z, exec z).

(** From [z] to [z'] the clock and the round timeout are the same, and the
    timer is as it was or has been reset with the round timeout of [z]. *)
Definition timed : relation zbft := λ z z',
  now z' = now z ∧ roundTimeout z' = roundTimeout z ∧
  (timer z' = timer z ∨
   deadline (timer z') = Some (now z + roundTimeout z)%Z).

(** Every future of [z] is still there in [z'], for the same batch, and in
    the same state if that state was terminal. *)
Definition settled : relation zbft := λ z z',
  ∀ i txs st, futs z !! i = Some (txs, st) →
    ∃ st', futs z' !! i = Some (txs, st') ∧ (st ≠ PENDING → st' = st).

(** The state an execution ends in ([z] itself if some step blocks). *)
Definition after (ls : list Label) (z : zbft) : zbft := default z (run ls z).

(** ** Queues, and the loop at rest *)

(** The step for one call of [SetGenesis], from the pair of its arguments. *)
Definition genesisCall (g : option Block * list Tx) : Label :=
  LSetGenesis g.1 g.2.

(** The entry [addTxsActive] makes for a batch. *)
Definition pendingFor (txs : list Tx) : list Tx * FutState := (txs, PENDING).

(** The capacities of the five channels [New] makes. *)
Definition capacities (z : zbft) : nat * nat * nat * nat * nat :=
  (cap (msgBcast z), cap (msgIn z), cap (txCollect z), cap (exec z),
   cap (confCh z)).

(** None of the five channels holds more than its capacity. *)
Definition bounded (z : zbft) : Prop :=
  length (buf (msgBcast z)) ≤ cap (msgBcast z) ∧
  length (buf (msgIn z)) ≤ cap (msgIn z) ∧
  length (buf (txCollect z)) ≤ cap (txCollect z) ∧
  length (buf (exec z)) ≤ cap (exec z) ∧
  length (buf (confCh z)) ≤ cap (confCh z).

Definition keepsBounds : relation zbft := λ z z',
  capacities z' = capacities z ∧ (bounded z → bounded z').

(** Nothing for the [select] of [Start] to receive: the three channels it
    reads are empty and the timer is stopped or not yet due. *)
Definition idle (z : zbft) : Prop :=
  buf (txq z) = [] ∧ buf (msgIn z) = [] ∧ buf (confCh z) = [] ∧
  ∀ d, deadline (timer z) = Some d → (now z < d)%Z.

(** What [New] fixes for the life of the engine. *)
Definition identity (z : zbft) : KeyPair * FSM * Logger * Hasher :=
  (kp z, fsm z, log z, hasher z).

(** Two public calls that write to different channels, at most one of
    them registering a future. *)
Definition independent (l1 l2 : Label) : bool :=
  match l1, l2 with
  | LStep _, LSetTimeout _ | LSetTimeout _, LStep _
  | LStep _, LProposeTxs _ | LProposeTxs _, LStep _
  | LSetTimeout _, LProposeTxs _ | LProposeTxs _, LSetTimeout _
  | LSetTimeout _, LSetGenesis _ _ | LSetGenesis _ _, LSetTimeout _ => true
  | _, _ => false
  end.

(** The hooks of the blockchain the engine holds: its validator and its
    hasher. *)
Definition hooks (z : zbft) := (bcValidator (bc z), bcHasher (bc z)).


End Statements.

(** ** A concrete engine

    Four validators [0..3] with quorum 3 and round-robin leaders; blocks are
    pairs of a height and a payload, and a block serves its height as the
    output of the input that equals its payload.  Used to run the
    definitions. *)
Module Demo.

#[local] Instance collaborators : Collaborators := {|
  Block := nat * nat;
  BlockHeader := nat * nat;
  Tx := nat;
  TxInput := nat;
  TxOutput := nat;
  PublicKey := nat;
  PrivateKey := nat;
  Hasher := unit;
  Logger := unit;
  BlockHeaderOf := λ b, b;
  HasherClone := λ h, h;
  HeaderHeight := fst;
  OutputsWith := λ b out i, if Nat.eqb i b.2 then inl b.1 else out i;
|}.

#[local] Instance policy : Policy := {|
  defaultRoundTimeout := 1000%Z;
  defaultBlockValidator := λ _, None;
  errTimedOut := Some "timed out"%string;
  txqSize := 16;
  quorum := 3;
  leaderOf := λ h n, (h + n) mod 4;
  validCandidate := λ _ _ _, true;
  makeBlock := λ _ h txs, (h, foldr Nat.add 0 txs);
|}.

Definition fsm_ok : FSM :=
  {| Prepare := λ _ _, None; Execute := λ _ _ _ _, None |}.

Definition chain0 : Blockchain :=
  {| bcBlocks := []; bcValidator := None;
     bcGetTXO := λ _, inr None; bcHasher := tt |}.

(** Validator 1 leads height 1. *)
Definition conf : Config :=
  {| cfgKeyPair := {| kpPublicKey := 1; kpPrivateKey := 0 |};
     cfgBlockchain := chain0; cfgFSM := fsm_ok; cfgLogger := tt |}.

(** A blockchain that comes with a validator of its own. *)
Definition chain_validating : Blockchain :=
  {| bcBlocks := []; bcValidator := Some (λ _, Some "refused"%string);
     bcGetTXO := λ _, inr None; bcHasher := tt |}.

Definition conf_validating : Config :=
  {| cfgKeyPair := {| kpPublicKey := 1; kpPrivateKey := 0 |};
     cfgBlockchain := chain_validating; cfgFSM := fsm_ok; cfgLogger := tt |}.

Definition genesis : Block := (0, 7).
Definition genesis' : Block := (0, 9).
Definition batch : list Tx := [5].

Definition vote (ty : MessageType) (from : nat) : Message :=
  {| msgType := ty; msgBlock := Some (1, 3); msgTxs := [1; 2]; msgFrom := from |}.

(** Genesis, then the scenario of section 8: the leader proposes [[1; 2]]
    at height 1, PREPARE and COMMIT votes arrive, the block is executed. *)
Definition scenario : list Label :=
  [ LSetGenesis (Some genesis) []; LSelect SrcMsgIn;
    LProposeTxs [1; 2]; LIntake; LSelect SrcTxq;
    LStep (vote Message_PREPARE 2); LSelect SrcMsgIn;
    LStep (vote Message_PREPARE 3); LSelect SrcMsgIn;
    LStep (vote Message_COMMIT 0); LSelect SrcMsgIn;
    LStep (vote Message_COMMIT 2); LSelect SrcMsgIn;
    LStep (vote Message_COMMIT 3); LSelect SrcMsgIn;
    LExec; LExec ].

(** The engine once genesis is finalized, and at the end of the scenario. *)
Definition z_genesis : zbft := after (take 2 scenario) (New conf).
Definition z_end : zbft := after scenario (New conf).

(** Values for the further properties. *)
Definition two_votes : list Message :=
  [vote Message_PREPARE 2; vote Message_COMMIT 3].
Definition two_batches : list (list Tx) := [[1; 2]; [5]].
Definition two_geneses : list (option Block * list Tx) :=
  [(Some genesis, []); (None, batch)].
Definition calls_only : list Label :=
  [ LSetGenesis (Some genesis) []; LProposeTxs [1; 2]; LSetTimeout 5%Z;
    LStep (vote Message_PREPARE 2) ].

End Demo.

(** * Properties *)

Section Proofs.
Context `{Policy}.

(** ** Reasoning about operations: relations between the state before and
    the state after *)

#[local] Instance same_preorder {B} (obs : zbft → B) : PreOrder (same obs).
Proof. split; unfold same; [intros z | intros x y z]; congruence. Qed.

Lemma bind_Some {A B} (m : M A) (f : A → M B) z b z' :
  (m ≫= f) z = Some (b, z') ↔ ∃ a z1, m z = Some (a, z1) ∧ f a z1 = Some (b, z').
Proof.
  unfold mbind, M_bind. destruct (m z) as [[a z1]|]; split.
  - eauto.
  - by intros (? & ? & [= <- <-] & ?).
  - done.
  - by intros (? & ? & ? & ?).
Qed.

Lemma follows_ret {A} R `{!Reflexive R} (a : A) : follows R (mret a).
Proof. by intros z ? ? [= _ <-]. Qed.

Lemma follows_bind {A B} R `{!Transitive R} (m : M A) (f : A → M B) :
  follows R m → (∀ a, follows R (f a)) → follows R (m ≫= f).
Proof.
  intros Hm Hf z b z' (a & z1 & H1 & H2)%bind_Some.
  transitivity z1; [exact (Hm _ _ _ H1) | exact (Hf _ _ _ _ H2)].
Qed.

Lemma follows_get R `{!Reflexive R} : follows R get.
Proof. by intros z ? ? [= _ <-]. Qed.

Lemma follows_modify R (f : zbft → zbft) :
  (∀ z, R z (f z)) → follows R (modify f).
Proof. intros Hf z ? ? [= _ <-]. apply Hf. Qed.

Lemma follows_send {A} R (ch : zbft → chan A) upd (v : A) :
  (∀ c z, R z (upd c z)) → follows R (send ch upd v).
Proof.
  intros Hf z ? z'. unfold send. destruct (chan_send v (ch z)); [|done].
  intros [= _ <-]. apply Hf.
Qed.

Lemma follows_recv {A} R (ch : zbft → chan A) upd :
  (∀ c z, R z (upd c z)) → follows R (recv ch upd).
Proof.
  intros Hf z ? z'. unfold recv. destruct (chan_recv (ch z)) as [[v c]|]; [|done].
  intros [= _ <-]. apply Hf.
Qed.

Lemma follows_weaken {A} (R R' : relation zbft) (m : M A) :
  (∀ z z', R z z' → R' z z') → follows R m → follows R' m.
Proof. intros HR Hm z a z' Hz. eauto. Qed.

Create HintDb follows discriminated.

Ltac follows_leaf :=
  first [ assumption | solve [eauto 3 with follows] ].

Ltac follows_go :=
  repeat first
    [ follows_leaf
    | apply follows_ret; [tc_solve]
    | apply follows_get; [tc_solve]
    | apply follows_bind; [tc_solve | | intros ?]
    | apply follows_modify; intros ?
    | apply follows_send; intros ? ?
    | apply follows_recv; intros ? ?
    | match goal with
      | |- follows _ (match ?x with _ => _ end) => destruct x
      | |- follows _ (let _ := _ in _) => cbv zeta
      end ].

Ltac same_go := follows_go; try (unfold same; reflexivity).

Lemma follows_blocked {A} R : follows R (blocked : M A).
Proof. by intros z a z'. Qed.

#[local] Hint Resolve follows_blocked : follows.

Lemma get_bind {A} (f : zbft → M A) z : (get ≫= f) z = f z z.
Proof. reflexivity. Qed.

Lemma modify_bind {A} (g : zbft → zbft) (m : M A) z :
  (modify g;; m) z = m (g z).
Proof. reflexivity. Qed.

(** Unfolding the handlers down to the state combinators. *)
Ltac unfold_handlers :=
  unfold handleReadyTxs, handleErrorAndReset, handleConfigChange,
    handleMessage, handleBootstrap, handlePrepare, handleCommit, finalize,
    startRound, proposeBuffered, propose, handlePropose, recvTimer, broadcast,
    resetTimer.

Ltac unfold_tasks :=
  unfold SetTimeout, SetGenesis, Step, ProposeTxs, execOne, intakeOne,
    resolve, fsmCalled, addTxsActive, broadcast.

(** ** The ledger changes only by finalization *)

#[local] Instance grows_preorder : PreOrder grows.
Proof.
  split.
  - intros z. exists []. rewrite app_nil_r. split_and!; [done|constructor|].
    intros h Hh. by apply elem_of_nil in Hh.
  - intros x y z (l1 & E1 & N1 & D1) (l2 & E2 & N2 & D2).
    exists (l1 ++ l2). rewrite E2, E1, <-(assoc_L (++)). split_and!; [done| |].
    + rewrite fmap_app. apply NoDup_app. split_and!; [done| |done].
      intros h H1 H2. apply (D2 h H2). rewrite E1, fmap_app.
      apply elem_of_app. by right.
    + intros h. rewrite fmap_app, elem_of_app. intros [Hh|Hh].
      * by apply D1.
      * intros Hx. apply (D2 h Hh). rewrite E1, fmap_app.
        apply elem_of_app. by left.
Qed.

Lemma same_bc_grows z z' : same bc z z' → grows z z'.
Proof. unfold same. intros E. exists []. rewrite E, app_nil_r.
  split_and!; [done|constructor|]. intros h Hh. by apply elem_of_nil in Hh. Qed.

Lemma grows_NoDup z z' :
  grows z z' → NoDup (bcBlocks (bc z)).*1 → NoDup (bcBlocks (bc z')).*1.
Proof.
  intros (l & E & N & D) Hz. rewrite E, fmap_app. apply NoDup_app.
  split_and!; [done| |done]. intros h H1 H2. by apply (D h H2).
Qed.

Lemma grows_prefix z z' :
  grows z z' → bcBlocks (bc z) `prefix_of` bcBlocks (bc z').
Proof. intros (l & E & _). by exists l. Qed.

Lemma startRound_bc h n : follows (same bc) (startRound h n).
Proof. unfold_handlers. same_go. Qed.

Lemma finalize_bc h blk txs ld z a z' :
  finalize h blk txs ld z = Some (a, z') →
  bc z' = appendBlock h blk (bc z).
Proof.
  unfold finalize. rewrite modify_bind. intros (? & z1 & H1 & H2)%bind_Some.
  apply startRound_bc in H2. unfold same in H2. rewrite H2.
  revert H1. unfold send. destruct (chan_send _ _); [|done].
  by intros [= _ <-].
Qed.

Lemma finalize_grows h blk txs ld z a z' :
  finalizedAt h z = false →
  finalize h blk txs ld z = Some (a, z') → grows z z'.
Proof.
  intros Hh Hf. apply finalize_bc in Hf. exists [(h, blk)].
  rewrite Hf. split_and!; [done|apply NoDup_singleton|].
  intros h' ->%list_elem_of_singleton.
  unfold finalizedAt in Hh. by apply bool_decide_eq_false in Hh.
Qed.

Lemma handleBootstrap_grows msg : follows grows (handleBootstrap msg).
Proof.
  intros z a z'. unfold handleBootstrap. rewrite get_bind.
  destruct (msgBlock msg) as [blk|]; [|by intros [= _ <-]].
  destruct (finalizedAt 0 z) eqn:E; [by intros [= _ <-]|].
  by apply finalize_grows.
Qed.

Lemma handleCommit_grows msg blk z a z' :
  msgBlock msg = Some blk →
  finalizedAt (HeightOf blk) z = false →
  handleCommit msg z = Some (a, z') → grows z z'.
Proof.
  intros Hb Hf. unfold handleCommit. rewrite get_bind, Hb.
  case_bool_decide as Hg; [|by intros [= _ <-]].
  destruct Hg as [Hh _]. rewrite Hh in Hf.
  destruct (decide _); [|intros [= _ <-]; by apply same_bc_grows].
  destruct (candidate (round z)) as [[cb txs]|]; [|by intros [= _ <-]].
  by apply finalize_grows.
Qed.

Lemma handlePropose_bc msg : follows (same bc) (handlePropose msg).
Proof. unfold_handlers. same_go. Qed.

Lemma handlePrepare_bc msg : follows (same bc) (handlePrepare msg).
Proof. unfold_handlers. same_go. Qed.

Lemma handleMessage_grows msg : follows grows (handleMessage msg).
Proof.
  intros z a z'. unfold handleMessage.
  destruct (msgType msg); [apply handleBootstrap_grows|..];
    rewrite get_bind; (destruct (msgBlock msg) as [blk|] eqn:Hb;
      [|by intros [= _ <-]]);
    (destruct (finalizedAt (HeightOf blk) z) eqn:Hf; [by intros [= _ <-]|]).
  - intros Hz. by apply same_bc_grows, (handlePropose_bc msg z a).
  - intros Hz. by apply same_bc_grows, (handlePrepare_bc msg z a).
  - by eapply handleCommit_grows.
Qed.

Lemma Start_select_grows s : follows grows (Start_select s).
Proof.
  destruct s; simpl.
  - eapply follows_weaken; [apply same_bc_grows|]. unfold_handlers. same_go.
  - apply follows_bind; [tc_solve| |intros ?; apply handleMessage_grows].
    eapply follows_weaken; [apply same_bc_grows|]. same_go.
  - eapply follows_weaken; [apply same_bc_grows|]. unfold_handlers. same_go.
  - eapply follows_weaken; [apply same_bc_grows|]. unfold_handlers. same_go.
Qed.

Lemma step_grows l : follows grows (step l).
Proof.
  destruct l; simpl; try apply Start_select_grows;
    (eapply follows_weaken; [apply same_bc_grows|]); unfold_tasks; same_go.
Qed.

Lemma run_grows ls z z' : run ls z = Some z' → grows z z'.
Proof.
  revert z. induction ls as [|l ls IH]; intros z; simpl.
  - by intros [= <-].
  - destruct (step l z) as [[[] z1]|] eqn:E; [|done].
    intros Hr. transitivity z1; [by eapply step_grows|by apply IH].
Qed.

Lemma NoDup_fst_functional {A B} (l : list (A * B)) a b1 b2 :
  NoDup l.*1 → (a, b1) ∈ l → (a, b2) ∈ l → b1 = b2.
Proof.
  induction l as [|[a' b'] l IH]; simpl; intros Hnd H1 H2.
  - by apply elem_of_nil in H1.
  - apply NoDup_cons in Hnd as [Hn Hnd].
    apply elem_of_cons in H1 as [E1|H1]; apply elem_of_cons in H2 as [E2|H2];
      simplify_eq.
    + done.
    + destruct Hn. change a' with ((a', b2).1). by apply list_elem_of_fmap_2.
    + destruct Hn. change a' with ((a', b1).1). by apply list_elem_of_fmap_2.
    + by apply IH.
Qed.

Lemma New_bcBlocks conf :
  bcBlocks (bc (New conf)) = bcBlocks (cfgBlockchain conf).
Proof. reflexivity. Qed.

(** C1 (safety).  Start an engine on a ledger that holds at most one block
    per height and let it run in any way: public calls, passes of the loop
    on messages in any order, timer expiries, executor and network steps.
    At every moment the ledger holds at most one block per height, and a
    block finalized at height [h] at some moment is the only block the
    ledger ever holds at [h] later on. *)
Theorem finalized_at_most_once conf ls1 ls2 z1 z2 :
  NoDup (bcBlocks (cfgBlockchain conf)).*1 →
  run ls1 (New conf) = Some z1 →
  run ls2 z1 = Some z2 →
  NoDup (bcBlocks (bc z2)).*1 ∧
  ∀ h b1 b2,
    (h, b1) ∈ bcBlocks (bc z1) → (h, b2) ∈ bcBlocks (bc z2) → b1 = b2.
Proof.
  intros Hnd H1 H2.
  apply run_grows in H1. apply run_grows in H2 as H2'.
  assert (NoDup (bcBlocks (bc z2)).*1) as Hz2.
  { eapply grows_NoDup; [done|]. eapply grows_NoDup; [done|].
    by rewrite New_bcBlocks. }
  split; [done|]. intros h b1 b2 Hb1 Hb2.
  eapply NoDup_fst_functional; [done| |done].
  apply grows_prefix in H2' as [l ->]. apply elem_of_app. by left.
Qed.

(** ** The calls on the FSM *)

#[local] Instance callsGrow_preorder : PreOrder callsGrow.
Proof.
  split.
  - intros z. exists []. by rewrite app_nil_r.
  - intros x y z (c1 & E1 & F1) (c2 & E2 & F2). exists (c1 ++ c2).
    rewrite E2, E1, <-(assoc_L (++)). split; [done|by apply Forall_app].
Qed.

Lemma same_fsmCalls_callsGrow z z' : same fsmCalls z z' → callsGrow z z'.
Proof. unfold same. intros E. exists []. by rewrite E, app_nil_r. Qed.

Lemma fsmCalled_callsGrow c : notInit c → follows callsGrow (fsmCalled c).
Proof.
  intros Hc z a z' [= _ <-]. exists [c]. split; [done|].
  by apply Forall_singleton.
Qed.

Lemma resolve_fsmCalls txs o : follows (same fsmCalls) (resolve txs o).
Proof. unfold resolve. same_go. Qed.

Lemma execOne_callsGrow : follows callsGrow execOne.
Proof.
  unfold execOne.
  apply follows_bind; [tc_solve| |intros eb].
  { eapply follows_weaken; [apply same_fsmCalls_callsGrow|]. same_go. }
  apply follows_bind; [tc_solve|apply follows_get; tc_solve|intros z]. cbv zeta.
  apply follows_bind; [tc_solve|by apply fsmCalled_callsGrow|intros _].
  destruct (Prepare _ _ _).
  { eapply follows_weaken;
      [apply same_fsmCalls_callsGrow|apply resolve_fsmCalls]. }
  apply follows_bind; [tc_solve|apply follows_get; tc_solve|intros z1].
  apply follows_bind; [tc_solve|by apply fsmCalled_callsGrow|intros _].
  eapply follows_weaken;
    [apply same_fsmCalls_callsGrow|apply resolve_fsmCalls].
Qed.

Lemma Start_select_fsmCalls s : follows (same fsmCalls) (Start_select s).
Proof. destruct s; simpl; unfold_handlers; same_go. Qed.

Lemma step_callsGrow l : follows callsGrow (step l).
Proof.
  destruct l; simpl; try apply execOne_callsGrow;
    (eapply follows_weaken; [apply same_fsmCalls_callsGrow|]);
    try apply Start_select_fsmCalls; unfold_tasks; same_go.
Qed.

Lemma run_follows (R : relation zbft) `{!PreOrder R} :
  (∀ l, follows R (step l)) → ∀ ls z z', run ls z = Some z' → R z z'.
Proof.
  intros HR ls. induction ls as [|l ls IH]; intros z z'; simpl.
  - by intros [= <-].
  - destruct (step l z) as [[[] z1]|] eqn:E; [|done].
    intros Hr. transitivity z1; [by eapply HR|by apply IH].
Qed.

(** C7.  [New] calls the FSM's [Init] once, on the blockchain of the
    configuration seen as a [TxStore] (so only [GetTXO] is available to the
    FSM), and that is the only call made on the FSM when [New] returns,
    before [Start] can run.  Whatever the engine does afterwards, [Init] is
    still the first call in the record and no later call is an [Init]. *)
Theorem Init_exactly_once conf ls z :
  run ls (New conf) = Some z →
  fsmCalls (New conf) = [CallInit (asTxStore (cfgBlockchain conf))] ∧
  ∃ later,
    fsmCalls z = CallInit (asTxStore (cfgBlockchain conf)) :: later ∧
    ∀ store, CallInit store ∉ later.
Proof.
  intros Hr. split; [done|].
  apply (run_follows callsGrow step_callsGrow) in Hr as (cs & E & F).
  exists cs. split; [by rewrite E|].
  intros store Hin. rewrite Forall_forall in F. by apply (F _ Hin store).
Qed.

(** ** Who changes the consensus state *)

Lemma step_consensus l : isSelect l = false → follows (same consensus) (step l).
Proof. destruct l; simpl; try done; intros _; unfold_tasks; same_go. Qed.

Lemma Start_select_onePass s z z' :
  Start_select s z = Some (tt, z') ↔ onePass s z z'.
Proof.
  destruct s; simpl; rewrite bind_Some; unfold recv, recvTimer.
  - split.
    + intros (txs & z1 & H1 & H2). destruct (chan_recv _) as [[v c]|]; [|done].
      injection H1 as -> <-. eauto.
    + intros (txs & c & -> & H2). eauto.
  - split.
    + intros (m & z1 & H1 & H2). destruct (chan_recv _) as [[v c]|]; [|done].
      injection H1 as -> <-. eauto.
    + intros (m & c & -> & H2). eauto.
  - rewrite get_bind. split.
    + intros (t & z1 & H1 & H2). destruct (deadline _) as [d|]; [|done].
      destruct (decide _); [|done]. injection H1 as _ <-. eauto.
    + intros (d & -> & Hd & H2). rewrite decide_True by done. eauto.
  - split.
    + intros (m & z1 & H1 & H2). destruct (chan_recv _) as [[v c]|]; [|done].
      injection H1 as -> <-. eauto.
    + intros (m & c & -> & H2). eauto.
Qed.

Lemma Start_run fired z :
  Start fired z = (λ z', (tt, z')) <$> run (LSelect <$> fired) z.
Proof.
  revert z. induction fired as [|s fired IH]; intros z; simpl; [done|].
  unfold mbind, M_bind. destruct (Start_select s z) as [[[] z1]|]; [|done].
  apply IH.
Qed.

(** C5.  The [select] of [Start] has four cases, one per input source.  A
    pass takes one value from the one source whose case fires and calls the
    one handler of that case on it, and the loop is nothing but one such
    pass after the other.  Among all the steps an engine can take, only a
    pass of the loop changes the consensus state. *)
Theorem one_event_per_iteration :
  (∀ s : Source, s ∈ sources) ∧ NoDup sources ∧ length sources = 4 ∧
  (∀ s z z', Start_select s z = Some (tt, z') ↔ onePass s z z') ∧
  (∀ fired z,
     Start fired z = (λ z', (tt, z')) <$> run (LSelect <$> fired) z) ∧
  (∀ l z z', step l z = Some (tt, z') →
     consensus z' ≠ consensus z → ∃ s, l = LSelect s).
Proof.
  split_and!.
  - intros []; by apply (bool_decide_unpack _).
  - by apply (bool_decide_unpack _).
  - done.
  - apply Start_select_onePass.
  - apply Start_run.
  - intros l z z' Hs Hc. destruct (isSelect l) eqn:E.
    + destruct l; try done. eauto.
    + destruct Hc. by apply (step_consensus l E z tt).
Qed.

(** ** The public operations *)

Ltac run_op H :=
  cbv [step SetTimeout SetGenesis Step ProposeTxs addTxsActive broadcast
       mbind M_bind mret M_ret get modify send chan_send] in H;
  simpl in H; repeat case_match; simplify_eq/=.

Lemma step_untouched l : isPublic l = true → follows (same untouched) (step l).
Proof. destruct l; simpl; try done; intros _; unfold_tasks; same_go. Qed.

(** C9.  A call of [SetTimeout], [SetGenesis], [Step] or [ProposeTxs]
    leaves the consensus state alone, and with it every field of the struct
    other than the four channels [confCh], [msgIn], [txCollect], [msgBcast]
    and the futures registry.  What it does is enqueue one value on each
    channel it names and, for [ProposeTxs] and [SetGenesis], register the
    future of the batch first. *)
Theorem public_calls_only_enqueue l z z' :
  isPublic l = true →
  step l z = Some (tt, z') →
  untouched z' = untouched z ∧ consensus z' = consensus z ∧ callEffect l z z'.
Proof.
  intros Hp Hs. split_and!.
  - by apply (step_untouched l Hp z tt).
  - assert (isSelect l = false) as Hl by (by destruct l).
    by apply (step_consensus l Hl z tt).
  - destruct l; try done; simpl.
    + run_op Hs. done.
    + run_op Hs. split_and!; try done. eexists. split_and!; try done.
      cbv [Step broadcast mbind M_bind send chan_send]. simpl.
      by rewrite !decide_True by done.
    + run_op Hs. done.
    + run_op Hs. split_and!; try done. eexists. split_and!; try done.
      cbv [send chan_send]. simpl. by rewrite decide_True by done.
Qed.

(** C10.  When [msgIn] and the broadcast queue have room, [SetGenesis]
    returns the handle of a fresh future, having built one BOOTSTRAP message
    with the given block, the given transactions and the node's own public
    key, and having appended that message both to [msgIn], exactly as
    [Step] would, and to the queue [BroadcastMessages] hands out. *)
Theorem SetGenesis_one_message blk txs z :
  length (buf (msgIn z)) < cap (msgIn z) →
  length (buf (msgBcast z)) < cap (msgBcast z) →
  ∃ z' msg,
    SetGenesis blk txs z = Some (length (futs z), z') ∧
    msgType msg = Message_BOOTSTRAP ∧ msgBlock msg = blk ∧
    msgTxs msg = txs ∧ msgFrom msg = kpPublicKey (kp z) ∧
    buf (msgIn z') = buf (msgIn z) ++ [msg] ∧
    buf (BroadcastMessages z') = buf (BroadcastMessages z) ++ [msg] ∧
    ∃ zs, Step msg z = Some (tt, zs) ∧ msgIn z' = msgIn zs.
Proof.
  intros Hin Hbc.
  cbv [SetGenesis Step addTxsActive broadcast mbind M_bind mret M_ret get
       modify send chan_send BroadcastMessages]. simpl.
  rewrite !decide_True by done.
  eexists _, (bootstrapOf z blk txs). split_and!; try done.
  eexists. by rewrite decide_True by done.
Qed.

(** ** Messages about what is already finalized *)

Lemma finalizedAt_true h z :
  h ∈ (bcBlocks (bc z)).*1 → finalizedAt h z = true.
Proof. intros Hh. unfold finalizedAt. by apply bool_decide_eq_true. Qed.

Lemma finalizedAt_false h z :
  h ∉ (bcBlocks (bc z)).*1 → finalizedAt h z = false.
Proof. intros Hh. unfold finalizedAt. by apply bool_decide_eq_false. Qed.

Lemma recv_head {A} (ch : zbft → chan A) upd v rest z :
  buf (ch z) = v :: rest →
  recv ch upd z = Some (v, upd {| cap := cap (ch z); buf := rest |} z).
Proof. intros E. unfold recv, chan_recv. by rewrite E. Qed.

(** C8.  A PREPARE or COMMIT message that names a block of a height the
    ledger already holds a block for is discarded: the handler returns with
    the state it was given, so no vote, round, timer, queue or future
    changes; the pass of the loop that receives it only takes it off
    [msgIn]. *)
Theorem replay_after_finalization_is_noop msg blk z :
  msgType msg = Message_PREPARE ∨ msgType msg = Message_COMMIT →
  msgBlock msg = Some blk →
  HeightOf blk ∈ (bcBlocks (bc z)).*1 →
  handleMessage msg z = Some (tt, z) ∧
  ∀ rest, buf (msgIn z) = msg :: rest →
    Start_select SrcMsgIn z =
      Some (tt, set_msgIn {| cap := cap (msgIn z); buf := rest |} z).
Proof.
  intros Hty Hblk Hfin.
  assert (∀ z0, bc z0 = bc z → handleMessage msg z0 = Some (tt, z0)) as Hno.
  { intros z0 E. unfold handleMessage.
    assert (finalizedAt (HeightOf blk) z0 = true) as Hf.
    { apply finalizedAt_true. by rewrite E. }
    destruct Hty as [-> | ->]; by rewrite get_bind, Hblk, Hf. }
  split; [by apply Hno|].
  intros rest Hbuf. simpl. apply bind_Some.
  eexists _, _. split; [by apply recv_head|]. by apply Hno.
Qed.


(** ** Genesis *)

Lemma proposeBuffered_afterGenesis : follows (same afterGenesis) proposeBuffered.
Proof.
  intros z a z'.
  cbv [proposeBuffered propose handlePropose broadcast resetTimer
       mbind M_bind mret M_ret get modify send chan_send]. simpl.
  intros Hz. by repeat case_match; simplify_eq/=.
Qed.

Lemma proposeBuffered_room z :
  length (buf (msgBcast z)) + 2 ≤ cap (msgBcast z) →
  ∃ z', proposeBuffered z = Some (tt, z').
Proof.
  intros Hroom.
  cbv [proposeBuffered propose handlePropose broadcast resetTimer
       mbind M_bind mret M_ret get modify send chan_send]. simpl.
  destruct (pending z); [by eexists|].
  destruct (bool_decide _); [|by eexists].
  rewrite decide_True by lia.
  destruct (_ && _); [|by eexists].
  simpl. rewrite decide_True by (rewrite length_app; simpl; lia). by eexists.
Qed.

(** C4.  A BOOTSTRAP message with a block, handled while the ledger holds no
    block at height 0 and the handoff queue has room, finalizes that block
    at once: whatever the phase and the votes of the current round, and
    whatever the block says about its predecessor (no validation is
    consulted), the handler reaches a state [z0] where the block is in the
    ledger at height 0 and last on the handoff queue, and the current round
    is the fresh round of height 1, without a vote.  All the handler does
    from there is propose a buffered batch for height 1 if the node leads
    that round; this touches neither ledger nor handoff queue and records
    no commit vote, and it returns when the broadcast queue has room for
    two messages. *)
Theorem bootstrap_finalizes_at_once msg blk z :
  msgType msg = Message_BOOTSTRAP →
  msgBlock msg = Some blk →
  0 ∉ (bcBlocks (bc z)).*1 →
  length (buf (exec z)) < cap (exec z) →
  let eb := {| ebBlock := blk; ebTxs := msgTxs msg;
               ebLeader := bool_decide (msgFrom msg = self z) |} in
  (∃ z0,
     bcBlocks (bc z0) = bcBlocks (bc z) ++ [(0, blk)] ∧
     buf (exec z0) = buf (exec z) ++ [eb] ∧
     round z0 = newRound 1 0 ∧
     handleMessage msg z = proposeBuffered z0) ∧
  (∀ z', handleMessage msg z = Some (tt, z') →
     bcBlocks (bc z') = bcBlocks (bc z) ++ [(0, blk)] ∧
     buf (exec z') = buf (exec z) ++ [eb] ∧
     height (round z') = 1 ∧ commitVotes (round z') = ∅) ∧
  (length (buf (msgBcast z)) + 2 ≤ cap (msgBcast z) →
   ∃ z', handleMessage msg z = Some (tt, z')).
Proof.
  intros Hty Hblk Hgen Hroom eb.
  set (z0 := set_timer {| deadline := Some (now z + roundTimeout z)%Z |}
    (set_round (newRound 1 0)
       (set_exec (push eb (exec z)) (set_bc (appendBlock 0 blk (bc z)) z)))).
  assert (handleMessage msg z = proposeBuffered z0) as Hh.
  { unfold handleMessage, handleBootstrap. rewrite Hty, get_bind, Hblk.
    rewrite finalizedAt_false by done.
    cbv [finalize startRound resetTimer mbind M_bind modify send chan_send].
    simpl. by rewrite decide_True by done. }
  split_and!.
  - by exists z0.
  - intros z' Hz'. rewrite Hh in Hz'.
    apply proposeBuffered_afterGenesis in Hz'. unfold same in Hz'.
    injection Hz' as -> -> -> ->. done.
  - intros Hb. rewrite Hh. by apply proposeBuffered_room.
Qed.

(** ** The round timeout and the timer *)

#[local] Instance timed_preorder : PreOrder timed.
Proof.
  split.
  - intros z. unfold timed. auto.
  - intros x y z (N1 & R1 & T1) (N2 & R2 & T2). unfold timed.
    rewrite N2, R2, N1, R1 in *. split_and!; [done..|].
    destruct T2 as [->| ->]; auto.
Qed.

Ltac timed_go :=
  follows_go;
  try (unfold timed; simpl; split_and!;
       [reflexivity..|first [left; reflexivity | right; reflexivity]]).

Lemma proposeBuffered_timed : follows timed proposeBuffered.
Proof. unfold_handlers. timed_go. Qed.

Lemma handleReadyTxs_timed txs : follows timed (handleReadyTxs txs).
Proof. unfold_handlers. timed_go. Qed.

Lemma handleMessage_timed msg : follows timed (handleMessage msg).
Proof. unfold_handlers. timed_go. Qed.

Lemma timer_pass_resets z z' :
  Start_select SrcTimer z = Some (tt, z') →
  roundTimeout z' = roundTimeout z ∧
  deadline (timer z') = Some (now z + roundTimeout z)%Z.
Proof.
  intros (d & Hd & Hle & Hh)%Start_select_onePass.
  revert Hh. unfold handleErrorAndReset, startRound, resetTimer.
  rewrite modify_bind, get_bind, !modify_bind.
  intros (_ & R & T)%proposeBuffered_timed. simpl in *.
  split; [done|]. by destruct T as [-> | ->].
Qed.

Lemma step_timed l :
  (∀ s, l ≠ LSelect s) → (∀ t, l ≠ LTick t) → follows timed (step l).
Proof.
  intros Hs Ht. destruct l; simpl; try (by destruct (Hs s));
    try (by destruct (Ht t)); unfold_tasks; timed_go.
Qed.

(** C6.  [SetTimeout d] only enqueues the change: the round timeout and the
    timer stay as they are.  The pass of the loop that takes the change off
    [confCh] sets the round timeout to [d] and leaves the timer, armed or
    not, with the deadline it had.  And no other step of the engine changes
    the round timeout, while every step that sets a deadline sets it to the
    current time plus the round timeout then in force: so [d] is what the
    deadlines are computed from, starting with the next reset. *)
Theorem SetTimeout_applies_at_next_reset d :
  (∀ z z1, SetTimeout d z = Some (tt, z1) →
     timer z1 = timer z ∧ roundTimeout z1 = roundTimeout z ∧
     confCh z1 = push (timeoutChange d) (confCh z)) ∧
  (∀ z rest, buf (confCh z) = timeoutChange d :: rest →
     ∃ z', Start_select SrcConfCh z = Some (tt, z') ∧
           timer z' = timer z ∧ roundTimeout z' = d) ∧
  (∀ l z z', step l z = Some (tt, z') → l ≠ LSelect SrcConfCh →
     roundTimeout z' = roundTimeout z ∧
     (timer z' = timer z ∨
      deadline (timer z') = Some (now z + roundTimeout z)%Z)).
Proof.
  split_and!.
  - intros z z1 Hs. run_op Hs. done.
  - intros z rest Hbuf. eexists. split_and!.
    + simpl. apply bind_Some. eexists _, _. split; [by apply recv_head|].
      reflexivity.
    + done.
    + done.
  - intros l z z' Hs Hl.
    destruct l as [| | | | | | |s| | | |t];
      try (apply step_timed in Hs as (_ & ? & ?); by auto).
    + destruct s.
      * simpl in Hs. apply bind_Some in Hs as (txs & z1 & H1 & H2).
        apply handleReadyTxs_timed in H2 as (N & R & T).
        unfold recv in H1. destruct (chan_recv _) as [[v c]|]; [|done].
        injection H1 as _ <-. simpl in *. done.
      * simpl in Hs. apply bind_Some in Hs as (m & z1 & H1 & H2).
        apply handleMessage_timed in H2 as (N & R & T).
        unfold recv in H1. destruct (chan_recv _) as [[v c]|]; [|done].
        injection H1 as _ <-. simpl in *. done.
      * apply timer_pass_resets in Hs as [? ?]. auto.
      * done.
    + injection Hs as <-. simpl. auto.
Qed.

(** ** The futures registry *)

#[local] Instance settled_preorder : PreOrder settled.
Proof.
  split.
  - intros z i txs st Hi. eauto.
  - intros x y z Hxy Hyz i txs st Hi.
    destruct (Hxy _ _ _ Hi) as (st1 & H1 & E1).
    destruct (Hyz _ _ _ H1) as (st2 & H2 & E2).
    exists st2. split; [done|]. intros Hst.
    specialize (E1 Hst). subst st1. by apply E2.
Qed.

Lemma same_futs_settled z z' : same futs z z' → settled z z'.
Proof. unfold same. intros E i txs st Hi. rewrite E. eauto. Qed.

Lemma addTxsActive_settled txs : follows settled (addTxsActive txs).
Proof.
  intros z a z' [= _ <-] i b st Hi. simpl. exists st. split; [|done].
  by apply lookup_app_l_Some.
Qed.

Lemma resolve_settled txs o : follows settled (resolve txs o).
Proof.
  intros z a z' [= _ <-] i b st Hi. cbn [futs set_futs].
  destruct (bool_decide (b = txs ∧ st = PENDING)) eqn:Hd.
  - exists o. split.
    + rewrite list_lookup_fmap, Hi. simpl. by rewrite Hd.
    + apply bool_decide_eq_true in Hd as [_ ->]. done.
  - exists st. split; [|done].
    rewrite list_lookup_fmap, Hi. simpl. by rewrite Hd.
Qed.

#[local] Hint Resolve addTxsActive_settled resolve_settled : follows.

Ltac settled_go :=
  follows_go; try (apply same_futs_settled; unfold same; reflexivity).

(** Whatever the engine does, a future that has reached COMMITTED or FAILED
    keeps that state. *)
Lemma step_settled l : follows settled (step l).
Proof.
  destruct l as [| | | | | | |s| | | |]; simpl;
    try (unfold SetTimeout, SetGenesis, Step, ProposeTxs, execOne, intakeOne,
           fsmCalled, broadcast; settled_go).
  eapply follows_weaken; [apply same_futs_settled|].
  destruct s; simpl; unfold_handlers; same_go.
Qed.

Lemma resolved_once ls z z' i txs st :
  run ls z = Some z' →
  futs z !! i = Some (txs, st) → st ≠ PENDING →
  futs z' !! i = Some (txs, st).
Proof.
  intros Hr Hi Hst.
  destruct (run_follows settled step_settled _ _ _ Hr _ _ _ Hi)
    as (st' & H' & E).
  by rewrite H', (E Hst).
Qed.

(** * Further properties of the public operations and of [Start] *)

(** ** Calls in a row, with nobody receiving *)

Lemma chan_eta {A} (c : chan A) : {| cap := cap c; buf := buf c |} = c.
Proof. by destruct c. Qed.

Lemma zbft_eta_msgIn z : set_msgIn (msgIn z) z = z.
Proof. by destruct z. Qed.

Lemma zbft_eta_confCh z : set_confCh (confCh z) z = z.
Proof. by destruct z. Qed.

Lemma zbft_eta_txCollect_futs z : set_txCollect (txCollect z) (set_futs (futs z) z) = z.
Proof. by destruct z. Qed.

Lemma collapse_txCollect_futs a b a' b' z :
  set_txCollect a (set_futs b (set_txCollect a' (set_futs b' z)))
  = set_txCollect a (set_futs b z).
Proof. reflexivity. Qed.

Lemma collapse_genesis a b c a' b' c' z :
  set_msgBcast a (set_msgIn b (set_futs c
    (set_msgBcast a' (set_msgIn b' (set_futs c' z)))))
  = set_msgBcast a (set_msgIn b (set_futs c z)).
Proof. reflexivity. Qed.

Lemma zbft_eta_genesis z :
  set_msgBcast (msgBcast z) (set_msgIn (msgIn z) (set_futs (futs z) z)) = z.
Proof. by destruct z. Qed.

(** Steps that each send one value on the same channel: they all return
    while the channel has room for all the values, which it then holds
    after the ones it held, in the order of the calls. *)
Lemma run_sends {A B} (ch : zbft → chan A) upd (mk : B → Label) (f : B → A) :
  (∀ b, step (mk b) = send ch upd (f b)) →
  (∀ c z, ch (upd c z) = c) →
  (∀ c c' z, upd c (upd c' z) = upd c z) →
  (∀ z, upd (ch z) z = z) →
  ∀ bs z, length (buf (ch z)) ≤ cap (ch z) →
    run (mk <$> bs) z =
      if decide (length (buf (ch z)) + length bs ≤ cap (ch z))
      then Some (upd {| cap := cap (ch z); buf := buf (ch z) ++ (f <$> bs) |} z)
      else None.
Proof.
  intros Hstep Hget Hupd Heta bs.
  induction bs as [|b bs IH]; intros z Hwf; simpl.
  - rewrite decide_True by lia. by rewrite app_nil_r, chan_eta, Heta.
  - rewrite Hstep. unfold send, chan_send.
    destruct (decide (length (buf (ch z)) < cap (ch z))) as [Hlt|Hge].
    + rewrite IH; rewrite Hget; simpl; [|rewrite length_app; simpl; lia].
      rewrite length_app. simpl.
      destruct (decide (length (buf (ch z)) + S (length bs) ≤ cap (ch z))).
      * rewrite decide_True by lia. by rewrite Hupd, <-(assoc_L (++)).
      * by rewrite decide_False by lia.
    + by rewrite decide_False by lia.
Qed.

(** X1.  Calls of [Step] in a row, while the loop takes nothing off
    [msgIn]: they all return exactly when [msgIn] has room for all the
    messages; [msgIn] then holds what it held followed by the messages in
    the order of the calls, and nothing else in the engine has changed.
    With one message too many, a call blocks. *)
Theorem Step_fifo_bounded msgs z :
  length (buf (msgIn z)) ≤ cap (msgIn z) →
  run (LStep <$> msgs) z =
    if decide (length (buf (msgIn z)) + length msgs ≤ cap (msgIn z))
    then Some (set_msgIn
                 {| cap := cap (msgIn z); buf := buf (msgIn z) ++ msgs |} z)
    else None.
Proof.
  intros Hwf.
  rewrite (run_sends msgIn set_msgIn LStep id); try done.
  - by rewrite list_fmap_id.
  - apply zbft_eta_msgIn.
Qed.

(** X2.  Calls of [SetTimeout] in a row, while the loop takes nothing off
    [confCh]: they all return exactly when [confCh] has room for all the
    changes, which then wait there in the order of the calls, each of kind
    [confChangeTimeout]; the round timeout itself and the rest of the
    engine are as before. *)
Theorem SetTimeout_fifo_bounded ds z :
  length (buf (confCh z)) ≤ cap (confCh z) →
  run (LSetTimeout <$> ds) z =
    if decide (length (buf (confCh z)) + length ds ≤ cap (confCh z))
    then Some (set_confCh
                 {| cap := cap (confCh z);
                    buf := buf (confCh z) ++ (timeoutChange <$> ds) |} z)
    else None.
Proof.
  intros Hwf.
  rewrite (run_sends confCh set_confCh LSetTimeout timeoutChange); try done.
  apply zbft_eta_confCh.
Qed.

Lemma run_ProposeTxs bs z :
  length (buf (txCollect z)) ≤ cap (txCollect z) →
  run (LProposeTxs <$> bs) z =
    if decide (length (buf (txCollect z)) + length bs ≤ cap (txCollect z))
    then Some (set_txCollect
                 {| cap := cap (txCollect z); buf := buf (txCollect z) ++ bs |}
                 (set_futs (futs z ++ (pendingFor <$> bs)) z))
    else None.
Proof.
  revert z. induction bs as [|b bs IH]; intros z Hwf; simpl.
  - rewrite decide_True by lia.
    by rewrite !app_nil_r, chan_eta, zbft_eta_txCollect_futs.
  - cbv [ProposeTxs addTxsActive mbind M_bind mret M_ret get modify send
         chan_send]. simpl.
    destruct (decide (length (buf (txCollect z)) < cap (txCollect z)))
      as [Hlt|Hge].
    + rewrite IH; simpl; [|rewrite length_app; simpl; lia].
      rewrite length_app. simpl.
      destruct (decide (length (buf (txCollect z)) + S (length bs)
                        ≤ cap (txCollect z))).
      * rewrite decide_True by lia.
        by rewrite collapse_txCollect_futs, <-!(assoc_L (++)).
      * by rewrite decide_False by lia.
    + by rewrite decide_False by lia.
Qed.

(** X3.  Calls of [ProposeTxs] in a row, while nothing is taken off
    [txCollect]: they all return exactly when [txCollect] has room for all
    the batches.  The registry then has one more PENDING future per batch
    and [txCollect] one more entry per batch, both in the order of the
    calls, so the n-th future added is the future of the n-th batch queued;
    nothing else in the engine has changed. *)
Theorem ProposeTxs_fifo_bounded bs z :
  length (buf (txCollect z)) ≤ cap (txCollect z) →
  run (LProposeTxs <$> bs) z =
    if decide (length (buf (txCollect z)) + length bs ≤ cap (txCollect z))
    then Some (set_txCollect
                 {| cap := cap (txCollect z); buf := buf (txCollect z) ++ bs |}
                 (set_futs (futs z ++ (pendingFor <$> bs)) z))
    else None.
Proof. apply run_ProposeTxs. Qed.

Lemma run_SetGenesis gs z :
  length (buf (msgIn z)) ≤ cap (msgIn z) →
  length (buf (msgBcast z)) ≤ cap (msgBcast z) →
  run (genesisCall <$> gs) z =
    if decide (length (buf (msgIn z)) + length gs ≤ cap (msgIn z) ∧
               length (buf (msgBcast z)) + length gs ≤ cap (msgBcast z))
    then Some
      (set_msgBcast
         {| cap := cap (msgBcast z);
            buf := buf (msgBcast z) ++ ((λ g, bootstrapOf z g.1 g.2) <$> gs) |}
         (set_msgIn
            {| cap := cap (msgIn z);
               buf := buf (msgIn z) ++ ((λ g, bootstrapOf z g.1 g.2) <$> gs) |}
            (set_futs (futs z ++ ((λ g, pendingFor g.2) <$> gs)) z)))
    else None.
Proof.
  revert z. induction gs as [|g gs IH]; intros z Hin Hbc; simpl.
  - rewrite decide_True by lia.
    by rewrite !app_nil_r, !chan_eta, zbft_eta_genesis.
  - cbv [SetGenesis addTxsActive broadcast mbind M_bind mret M_ret get modify
         send chan_send]. simpl.
    destruct (decide (length (buf (msgIn z)) < cap (msgIn z))) as [H1|H1];
      [|rewrite decide_False by lia; done].
    simpl.
    destruct (decide (length (buf (msgBcast z)) < cap (msgBcast z))) as [H2|H2];
      [|rewrite decide_False by lia; done].
    rewrite IH; simpl; [|rewrite length_app; simpl; lia..].
    rewrite !length_app. simpl.
    destruct (decide (length (buf (msgIn z)) + S (length gs) ≤ cap (msgIn z) ∧
                      length (buf (msgBcast z)) + S (length gs)
                      ≤ cap (msgBcast z))).
    + rewrite decide_True by lia.
      by rewrite collapse_genesis, <-!(assoc_L (++)).
    + by rewrite decide_False by lia.
Qed.

(** X4.  Calls of [SetGenesis] in a row, while nothing is taken off [msgIn]
    and the broadcast queue: they all return exactly when both have room
    for one message per call; a full broadcast queue blocks the call even
    when [msgIn] has room.  Each call leaves one PENDING future and one
    and the same BOOTSTRAP message, signed with the node's key, at the end
    of both queues, in the order of the calls. *)
Theorem SetGenesis_fifo_bounded gs z :
  length (buf (msgIn z)) ≤ cap (msgIn z) →
  length (buf (msgBcast z)) ≤ cap (msgBcast z) →
  run (genesisCall <$> gs) z =
    if decide (length (buf (msgIn z)) + length gs ≤ cap (msgIn z) ∧
               length (buf (msgBcast z)) + length gs ≤ cap (msgBcast z))
    then Some
      (set_msgBcast
         {| cap := cap (msgBcast z);
            buf := buf (msgBcast z) ++ ((λ g, bootstrapOf z g.1 g.2) <$> gs) |}
         (set_msgIn
            {| cap := cap (msgIn z);
               buf := buf (msgIn z) ++ ((λ g, bootstrapOf z g.1 g.2) <$> gs) |}
            (set_futs (futs z ++ ((λ g, pendingFor g.2) <$> gs)) z)))
    else None.
Proof. apply run_SetGenesis. Qed.

(** X5.  The queues of a fresh engine, when no other task runs: [New]
    leaves room for exactly 16 calls of [Step], 8 of [SetTimeout], 16 of
    [ProposeTxs] and 16 of [SetGenesis]; the next call of the kind
    blocks. *)
Theorem fresh_engine_capacities conf :
  (∀ msgs, is_Some (run (LStep <$> msgs) (New conf)) ↔ length msgs ≤ 16) ∧
  (∀ ds, is_Some (run (LSetTimeout <$> ds) (New conf)) ↔ length ds ≤ 8) ∧
  (∀ bs, is_Some (run (LProposeTxs <$> bs) (New conf)) ↔ length bs ≤ 16) ∧
  (∀ gs, is_Some (run (genesisCall <$> gs) (New conf)) ↔ length gs ≤ 16).
Proof.
  split_and!.
  - intros msgs.
    rewrite (run_sends msgIn set_msgIn LStep id); try done;
      [|apply zbft_eta_msgIn|simpl; lia].
    simpl. destruct (decide _); split; try done; try lia;
      try (by intros [? ?]).
  - intros ds.
    rewrite (run_sends confCh set_confCh LSetTimeout timeoutChange); try done;
      [|apply zbft_eta_confCh|simpl; lia].
    simpl. destruct (decide _); split; try done; try lia;
      try (by intros [? ?]).
  - intros bs. rewrite run_ProposeTxs by (simpl; lia).
    simpl. destruct (decide _); split; try done; try lia;
      try (by intros [? ?]).
  - intros gs. rewrite run_SetGenesis by (simpl; lia).
    simpl. destruct (decide _); split; try done; try lia;
      try (by intros [? ?]).
Qed.

(** ** From a call to the pass that serves it *)

(** X6.  [Step] followed by a pass of the loop on the [msgIn] case: the
    handler is called on the oldest message waiting, which is the message
    just given when [msgIn] was empty, and runs on the engine with that
    message taken off the queue; [Step] itself has changed nothing else. *)
Theorem Step_then_pass msg z m0 rest :
  length (buf (msgIn z)) < cap (msgIn z) →
  buf (msgIn z) ++ [msg] = m0 :: rest →
  (Step msg;; Start_select SrcMsgIn) z =
    handleMessage m0 (set_msgIn {| cap := cap (msgIn z); buf := rest |} z).
Proof.
  intros Hroom Hq.
  unfold Step, Start_select, mbind, M_bind, send, recv, chan_send, chan_recv.
  rewrite decide_True by done. cbn [msgIn set_msgIn buf cap]. by rewrite Hq.
Qed.

(** X7.  [SetTimeout] followed by a pass of the loop on the [confCh] case:
    the handler of configuration changes is called on the oldest change
    waiting, which is [confChangeTimeout] with the given duration when
    [confCh] was empty, on the engine with that change taken off the
    queue. *)
Theorem SetTimeout_then_pass d z c0 rest :
  length (buf (confCh z)) < cap (confCh z) →
  buf (confCh z) ++ [timeoutChange d] = c0 :: rest →
  (SetTimeout d;; Start_select SrcConfCh) z =
    handleConfigChange c0
      (set_confCh {| cap := cap (confCh z); buf := rest |} z).
Proof.
  intros Hroom Hq.
  unfold SetTimeout, Start_select, mbind, M_bind, send, recv, chan_send,
    chan_recv.
  rewrite decide_True by done. cbn [confCh set_confCh buf cap].
  fold (timeoutChange d). by rewrite Hq.
Qed.

(** X8.  After [SetGenesis] on an engine whose [msgIn] was empty, the next
    pass of the loop on the [msgIn] case calls the message handler on the
    BOOTSTRAP message of the call itself, on an engine where the future is
    registered and the same message already waits on the broadcast
    queue. *)
Theorem SetGenesis_then_pass blk txs z fut z1 :
  buf (msgIn z) = [] →
  SetGenesis blk txs z = Some (fut, z1) →
  Start_select SrcMsgIn z1 =
    handleMessage (bootstrapOf z blk txs)
      (set_msgBcast (push (bootstrapOf z blk txs) (msgBcast z))
         (set_msgIn {| cap := cap (msgIn z); buf := [] |}
            (set_futs (futs z ++ [pendingFor txs]) z))).
Proof.
  intros Hq Hs.
  cbv [SetGenesis addTxsActive broadcast mbind M_bind mret M_ret get modify
       send chan_send] in Hs. simpl in Hs.
  destruct (decide _) in Hs; [|done]. simpl in Hs.
  destruct (decide _) in Hs; [|done]. injection Hs as _ <-.
  unfold Start_select, mbind, M_bind, recv, chan_recv.
  cbn [msgIn set_msgIn set_msgBcast buf cap]. by rewrite Hq.
Qed.

(** ** The loop at rest *)

Lemma idle_blocks z s : idle z → Start_select s z = None.
Proof.
  intros (Htx & Hin & Hcc & Ht).
  destruct (Start_select s z) as [[[] z']|] eqn:E; [|done].
  apply Start_select_onePass in E.
  destruct s; simpl in E; unfold chan_recv in E.
  - destruct E as (? & ? & E & _). by rewrite Htx in E.
  - destruct E as (? & ? & E & _). by rewrite Hin in E.
  - destruct E as (d & E & Hd & _). specialize (Ht d E). lia.
  - destruct E as (? & ? & E & _). by rewrite Hcc in E.
Qed.

Lemma ProposeTxs_inputs txs :
  follows (same (λ z, (txq z, msgIn z, confCh z, timer z, now z)))
    (ProposeTxs txs).
Proof. unfold_tasks. same_go. Qed.

(** X9.  [ProposeTxs] writes to [txCollect], and the [select] of [Start]
    reads [txq]: however many batches are submitted to an engine whose loop
    has nothing to receive, the loop still has nothing to receive, on none
    of its four cases.  Something other than the loop has to move the
    batches on. *)
Theorem ProposeTxs_does_not_wake_the_loop bs z z' :
  idle z →
  run (LProposeTxs <$> bs) z = Some z' →
  idle z' ∧ ∀ s, Start_select s z' = None.
Proof.
  intros Hidle Hr.
  assert (idle z') as Hz'.
  { revert z Hidle Hr. induction bs as [|b bs IH]; intros z Hidle; simpl.
    - by intros [= <-].
    - destruct ((ProposeTxs b;; mret ()) z) as [[[] z1]|] eqn:E; [|done].
      apply IH. apply bind_Some in E as (f & z2 & E & [= <-]).
      apply ProposeTxs_inputs in E. unfold same in E.
      injection E as E1 E2 E3 E4 E5. unfold idle.
      by rewrite E1, E2, E3, E4, E5. }
  split; [done|]. intros s. by apply idle_blocks.
Qed.

(** ** Calls on different channels *)

(** X10.  Two public calls that write to different channels, at most one
    of them registering a future ([Step] and [SetTimeout], [Step] and
    [ProposeTxs], [SetTimeout] and [ProposeTxs], [SetTimeout] and
    [SetGenesis]), give the same engine in either order, and block in one
    order exactly when they block in the other. *)
Theorem independent_calls_commute l1 l2 z :
  independent l1 l2 = true →
  run [l1; l2] z = run [l2; l1] z.
Proof.
  intros Hi. destruct l1, l2; try done; simpl;
    cbv [SetTimeout SetGenesis Step ProposeTxs addTxsActive broadcast
         mbind M_bind mret M_ret get modify send chan_send];
    simpl; repeat (destruct (decide _); simpl); try done.
Qed.

(** ** Bounded queues *)

Lemma chan_send_bound {A} (v : A) c c' :
  chan_send v c = Some c' → cap c' = cap c ∧ length (buf c') ≤ cap c'.
Proof.
  unfold chan_send. destruct (decide _); [|done]. intros [= <-]. simpl.
  rewrite length_app. simpl. lia.
Qed.

Lemma chan_recv_bound {A} (v : A) c c' :
  chan_recv c = Some (v, c') →
  cap c' = cap c ∧ length (buf c') ≤ length (buf c).
Proof.
  unfold chan_recv. destruct (buf c); [done|]. intros [= _ <-]. simpl. lia.
Qed.

Lemma follows_send_some {A} R (ch : zbft → chan A) upd (v : A) :
  (∀ z c, chan_send v (ch z) = Some c → R z (upd c z)) →
  follows R (send ch upd v).
Proof.
  intros Hf z ? z'. unfold send.
  destruct (chan_send v (ch z)) eqn:E; [|done]. intros [= _ <-]. by apply Hf.
Qed.

Lemma follows_recv_some {A} R (ch : zbft → chan A) upd :
  (∀ z v c, chan_recv (ch z) = Some (v, c) → R z (upd c z)) →
  follows R (recv ch upd).
Proof.
  intros Hf z ? z'. unfold recv.
  destruct (chan_recv (ch z)) as [[v c]|] eqn:E; [|done].
  intros [= _ <-]. by eapply Hf.
Qed.

#[local] Instance keepsBounds_preorder : PreOrder keepsBounds.
Proof.
  split.
  - intros z. by split.
  - intros x y z [C1 B1] [C2 B2]. split; [congruence|auto].
Qed.

Ltac bounds_leaf :=
  unfold keepsBounds, capacities, bounded; simpl;
  repeat match goal with
    | E : chan_send _ _ = Some _ |- _ => apply chan_send_bound in E as [? ?]
    | E : chan_recv _ = Some _ |- _ => apply chan_recv_bound in E as [? ?]
    end;
  split; [congruence | intros (? & ? & ? & ? & ?); split_and!; lia].

Ltac bounds_go :=
  repeat first
    [ follows_leaf
    | apply follows_ret; [tc_solve]
    | apply follows_get; [tc_solve]
    | apply follows_bind; [tc_solve | | intros ?]
    | apply follows_modify; intros ?
    | apply follows_send_some; intros ? ? ?
    | apply follows_recv_some; intros ? ? ? ?
    | match goal with
      | |- follows _ (match ?x with _ => _ end) => destruct x
      | |- follows _ (let _ := _ in _) => cbv zeta
      end ];
  try bounds_leaf.

Lemma step_keepsBounds l : follows keepsBounds (step l).
Proof.
  destruct l as [| | | | | | |s| | | |]; simpl;
    try (unfold_tasks; bounds_go).
  destruct s; simpl; unfold_handlers; bounds_go.
Qed.

(** X11.  The five channels [New] makes keep their capacities (16 for
    [msgBcast], [msgIn], [txCollect] and [exec], 8 for [confCh]) and never
    hold more than that, whatever calls are made and whatever the loop and
    the other tasks do. *)
Theorem queues_stay_bounded conf ls z :
  run ls (New conf) = Some z →
  capacities z = (16, 16, 16, 16, 8) ∧ bounded z.
Proof.
  intros Hr.
  apply (run_follows keepsBounds step_keepsBounds) in Hr as [Hc Hb].
  split; [done|]. apply Hb. unfold bounded. simpl. lia.
Qed.

Lemma Step_Some msg z :
  length (buf (msgIn z)) < cap (msgIn z) →
  Step msg z = Some (tt, set_msgIn (push msg (msgIn z)) z).
Proof.
  intros Hroom. unfold Step, send, chan_send. by rewrite decide_True by done.
Qed.

Lemma SetGenesis_Some blk txs z :
  length (buf (msgIn z)) < cap (msgIn z) →
  length (buf (msgBcast z)) < cap (msgBcast z) →
  SetGenesis blk txs z =
    Some (length (futs z),
          set_msgBcast (push (bootstrapOf z blk txs) (msgBcast z))
            (set_msgIn (push (bootstrapOf z blk txs) (msgIn z))
               (set_futs (futs z ++ [pendingFor txs]) z))).
Proof.
  intros Hin Hbc.
  cbv [SetGenesis addTxsActive broadcast mbind M_bind mret M_ret get modify
       send chan_send]. simpl.
  rewrite decide_True by done. simpl. by rewrite decide_True by done.
Qed.

(** X12.  [Step] and [SetGenesis] both write to [msgIn], and there the
    order of the calls is kept: when the message given to [Step] is not the
    BOOTSTRAP message of the [SetGenesis] call and there is room for both,
    the two orders of calling leave different engines. *)
Theorem Step_SetGenesis_order_matters msg blk txs z :
  length (buf (msgIn z)) + 2 ≤ cap (msgIn z) →
  length (buf (msgBcast z)) < cap (msgBcast z) →
  msg ≠ bootstrapOf z blk txs →
  run [LStep msg; LSetGenesis blk txs] z
    ≠ run [LSetGenesis blk txs; LStep msg] z.
Proof.
  intros Hin Hbc Hne. simpl. unfold mbind, M_bind, mret, M_ret.
  rewrite (Step_Some msg z) by lia.
  rewrite (SetGenesis_Some blk txs z) by lia.
  rewrite SetGenesis_Some by (simpl; rewrite ?length_app; simpl; lia).
  rewrite Step_Some by (simpl; rewrite ?length_app; simpl; lia).
  intros E. assert (∀ a b : zbft, Some a = Some b → buf (msgIn a) = buf (msgIn b))
    as Hbuf by (by intros a b [= ->]).
  apply Hbuf in E. simpl in E. rewrite <-!(assoc_L (++)) in E.
  apply app_inv_head in E. by injection E.
Qed.

(** ** What stays as [New] set it *)

Lemma step_identity l : follows (same identity) (step l).
Proof.
  destruct l as [| | | | | | |s| | | |]; simpl; try (unfold_tasks; same_go).
  destruct s; simpl; unfold_handlers; same_go.
Qed.

(** X13.  The key pair, the FSM, the logger and the hasher of an engine are
    those [New] took from the configuration, for as long as it runs; so the
    message [SetGenesis] builds carries the public key of the configuration
    as its sender, whenever it is called. *)
Theorem SetGenesis_sender_is_configured_key conf ls z blk txs fut z' :
  run ls (New conf) = Some z →
  SetGenesis blk txs z = Some (fut, z') →
  identity z =
    (cfgKeyPair conf, cfgFSM conf, cfgLogger conf,
     HasherClone (bcHasher (cfgBlockchain conf))) ∧
  last (buf (msgIn z')) =
    Some {| msgType := Message_BOOTSTRAP; msgBlock := blk; msgTxs := txs;
            msgFrom := kpPublicKey (cfgKeyPair conf) |}.
Proof.
  intros Hr Hs.
  apply (run_follows (same identity) step_identity) in Hr.
  unfold same in Hr. split; [done|].
  assert (kp z = cfgKeyPair conf) as Hkp by (by injection Hr).
  cbv [SetGenesis addTxsActive broadcast mbind M_bind mret M_ret get modify
       send chan_send] in Hs. simpl in Hs.
  destruct (decide _) in Hs; [|done]. simpl in Hs.
  destruct (decide _) in Hs; [|done]. injection Hs as _ <-. simpl.
  by rewrite last_snoc, Hkp.
Qed.

Lemma run_public_untouched ls z z' :
  Forall (λ l, isPublic l = true) ls →
  run ls z = Some z' → untouched z' = untouched z.
Proof.
  intros Hp. revert z. induction Hp as [|l ls Hl _ IH]; intros z; simpl.
  - by intros [= <-].
  - destruct (step l z) as [[[] z1]|] eqn:E; [|done]. intros Hr.
    rewrite (IH _ Hr). by apply (step_untouched l Hl z tt).
Qed.

(** X14.  Calls alone get nothing done.  After any number of calls of
    [SetTimeout], [SetGenesis], [Step] and [ProposeTxs] on a fresh engine,
    with no pass of the loop in between, the round timeout is still the
    default, the ledger is the one of the configuration, nothing waits for
    the executor, and the FSM has seen its [Init] and no other call. *)
Theorem calls_alone_change_no_state conf ls z :
  Forall (λ l, isPublic l = true) ls →
  run ls (New conf) = Some z →
  roundTimeout z = defaultRoundTimeout ∧
  bcBlocks (bc z) = bcBlocks (cfgBlockchain conf) ∧
  buf (exec z) = [] ∧
  fsmCalls z = [CallInit (asTxStore (cfgBlockchain conf))].
Proof.
  intros Hp Hr. apply run_public_untouched in Hr; [|done].
  unfold untouched in Hr. simpl in Hr.
  injection Hr as Hbc _ _ Hrt Hex _ _ _ _ _ _ _ _ Hfc.
  by rewrite Hbc, Hrt, Hex, Hfc.
Qed.

Lemma step_hooks l : follows (same hooks) (step l).
Proof.
  destruct l as [| | | | | | |s| | | |]; simpl; try (unfold_tasks; same_go).
  destruct s; simpl; unfold_handlers; same_go.
Qed.

(** X15.  [New] installs the default block validator on the blockchain of
    the configuration, in place of any validator that was set on it, and
    leaves its blocks, outputs and hasher as they were.  The validator and
    the hasher then stay as [New] left them for as long as the engine
    runs. *)
Theorem default_validator_installed conf ls z :
  run ls (New conf) = Some z →
  (bcBlocks (bc (New conf)) = bcBlocks (cfgBlockchain conf) ∧
   bcGetTXO (bc (New conf)) = bcGetTXO (cfgBlockchain conf)) ∧
  bcValidator (bc z) = Some defaultBlockValidator ∧
  bcHasher (bc z) = bcHasher (cfgBlockchain conf).
Proof.
  intros Hr. split; [done|].
  apply (run_follows (same hooks) step_hooks) in Hr.
  unfold same, hooks in Hr. simpl in Hr. by injection Hr as -> ->.
Qed.

End Proofs.

(** * The theorems at work on the concrete engine *)

Section Witnesses.
Import Demo.
#[local] Existing Instances Demo.collaborators Demo.policy.

(** The scenario ends with two blocks in the ledger, both futures
    COMMITTED, the handoff queue drained, [Init] then two [Prepare]/[Execute]
    pairs on the FSM, and the engine in a fresh round at height 2. *)
Example scenario_ledger :
  bcBlocks (bc z_end) = [(0, genesis); (1, (1, 3))].
Proof. vm_compute. reflexivity. Qed.

Example scenario_futures :
  futs z_end = [([], COMMITTED); ([1; 2], COMMITTED)] ∧ buf (exec z_end) = [].
Proof. vm_compute. split; reflexivity. Qed.

Example scenario_round :
  height (round z_end) = 2 ∧ phase (round z_end) = PROPOSE ∧
  length (fsmCalls z_end) = 5.
Proof. vm_compute. repeat split; reflexivity. Qed.

(** A second COMMIT quorum for height 1 changes nothing. *)
Example scenario_replay :
  run [LStep (vote Message_COMMIT 0); LSelect SrcMsgIn] z_end = Some z_end.
Proof. vm_compute. reflexivity. Qed.

(** A timer expiry in the middle of the round retries height 1 with the
    next round number. *)
Example scenario_timeout :
  let z := after (take 7 scenario ++ [LTick 5000%Z; LSelect SrcTimer]) (New conf) in
  height (round z) = 1 ∧ number (round z) = 1 ∧ phase (round z) = PROPOSE ∧
  deadline (timer z) = Some 6000%Z ∧ failures z = [errTimedOut].
Proof. vm_compute. repeat split; reflexivity. Qed.

Lemma finalized_at_most_once_witness :
  NoDup (bcBlocks (bc z_end)).*1 ∧
  ∀ h b1 b2,
    (h, b1) ∈ bcBlocks (bc z_genesis) →
    (h, b2) ∈ bcBlocks (bc z_end) → b1 = b2.
Proof.
  apply (finalized_at_most_once conf (take 2 scenario) (drop 2 scenario)
           z_genesis z_end).
  - constructor.
  - vm_compute. reflexivity.
  - vm_compute. reflexivity.
Defined.

Lemma Init_exactly_once_witness :
  fsmCalls (New conf) = [CallInit (asTxStore (cfgBlockchain conf))] ∧
  ∃ later,
    fsmCalls z_end = CallInit (asTxStore (cfgBlockchain conf)) :: later ∧
    ∀ store, CallInit store ∉ later.
Proof.
  apply (Init_exactly_once conf scenario z_end).
  vm_compute. reflexivity.
Defined.

Lemma one_event_per_iteration_witness :
  onePass SrcMsgIn (after (take 1 scenario) (New conf)) z_genesis.
Proof.
  apply (proj1 (proj2 (proj2 (proj2 one_event_per_iteration)))).
  vm_compute. reflexivity.
Defined.

Lemma public_calls_only_enqueue_witness :
  let l := LSetGenesis (Some genesis) [] in
  untouched (after [l] (New conf)) = untouched (New conf) ∧
  consensus (after [l] (New conf)) = consensus (New conf) ∧
  callEffect l (New conf) (after [l] (New conf)).
Proof.
  apply (public_calls_only_enqueue (LSetGenesis (Some genesis) []) (New conf)).
  - reflexivity.
  - vm_compute. reflexivity.
Defined.

Lemma SetGenesis_one_message_witness :
  ∃ z' msg,
    SetGenesis (Some genesis) [] (New conf) = Some (0, z') ∧
    msgType msg = Message_BOOTSTRAP ∧ msgBlock msg = Some genesis ∧
    msgTxs msg = [] ∧ msgFrom msg = 1 ∧
    buf (msgIn z') = [msg] ∧
    buf (BroadcastMessages z') = [msg] ∧
    ∃ zs, Step msg (New conf) = Some (tt, zs) ∧ msgIn z' = msgIn zs.
Proof.
  apply (SetGenesis_one_message (Some genesis) [] (New conf)); simpl; lia.
Defined.

Lemma replay_after_finalization_is_noop_witness :
  handleMessage (vote Message_PREPARE 2) z_end = Some (tt, z_end) ∧
  ∀ rest, buf (msgIn z_end) = vote Message_PREPARE 2 :: rest →
    Start_select SrcMsgIn z_end =
      Some (tt, set_msgIn {| cap := cap (msgIn z_end); buf := rest |} z_end).
Proof.
  apply (replay_after_finalization_is_noop (vote Message_PREPARE 2) (1, 3) z_end).
  - left. reflexivity.
  - reflexivity.
  - apply (bool_decide_unpack _). vm_compute. exact I.
Defined.



Lemma bootstrap_finalizes_at_once_witness :
  let msg := bootstrapOf (New conf) (Some genesis) [] in
  let eb := {| ebBlock := genesis; ebTxs := []; ebLeader := true |} in
  (∃ z0,
     bcBlocks (bc z0) = [(0, genesis)] ∧ buf (exec z0) = [eb] ∧
     round z0 = newRound 1 0 ∧
     handleMessage msg (New conf) = proposeBuffered z0) ∧
  (∀ z', handleMessage msg (New conf) = Some (tt, z') →
     bcBlocks (bc z') = [(0, genesis)] ∧ buf (exec z') = [eb] ∧
     height (round z') = 1 ∧ commitVotes (round z') = ∅) ∧
  (0 + 2 ≤ 16 → ∃ z', handleMessage msg (New conf) = Some (tt, z')).
Proof.
  apply (bootstrap_finalizes_at_once
           (bootstrapOf (New conf) (Some genesis) []) genesis (New conf)).
  - reflexivity.
  - reflexivity.
  - simpl. apply not_elem_of_nil.
  - simpl. lia.
Defined.

Lemma SetTimeout_applies_at_next_reset_witness :
  let z1 := after [LSetTimeout 250%Z] z_genesis in
  ∃ z', Start_select SrcConfCh z1 = Some (tt, z') ∧
        timer z' = timer z1 ∧ roundTimeout z' = 250%Z.
Proof.
  apply (proj1 (proj2 (SetTimeout_applies_at_next_reset 250%Z)) _ []).
  vm_compute. reflexivity.
Defined.

(** ** The further properties *)

Lemma Step_fifo_bounded_witness :
  run (LStep <$> two_votes) (New conf) =
    if decide (length (buf (msgIn (New conf))) + length two_votes
               ≤ cap (msgIn (New conf)))
    then Some (set_msgIn
                 {| cap := cap (msgIn (New conf));
                    buf := buf (msgIn (New conf)) ++ two_votes |} (New conf))
    else None.
Proof. apply (Step_fifo_bounded two_votes (New conf)). simpl. lia. Defined.

Lemma SetTimeout_fifo_bounded_witness :
  run (LSetTimeout <$> [5%Z; 0%Z]) (New conf) =
    if decide (length (buf (confCh (New conf))) + length [5%Z; 0%Z]
               ≤ cap (confCh (New conf)))
    then Some (set_confCh
                 {| cap := cap (confCh (New conf));
                    buf := buf (confCh (New conf))
                           ++ (timeoutChange <$> [5%Z; 0%Z]) |} (New conf))
    else None.
Proof. apply (SetTimeout_fifo_bounded [5%Z; 0%Z] (New conf)). simpl. lia. Defined.

Lemma ProposeTxs_fifo_bounded_witness :
  run (LProposeTxs <$> two_batches) (New conf) =
    if decide (length (buf (txCollect (New conf))) + length two_batches
               ≤ cap (txCollect (New conf)))
    then Some (set_txCollect
                 {| cap := cap (txCollect (New conf));
                    buf := buf (txCollect (New conf)) ++ two_batches |}
                 (set_futs (futs (New conf) ++ (pendingFor <$> two_batches))
                    (New conf)))
    else None.
Proof. apply (ProposeTxs_fifo_bounded two_batches (New conf)). simpl. lia. Defined.

Lemma SetGenesis_fifo_bounded_witness :
  run (genesisCall <$> two_geneses) (New conf) =
    if decide (length (buf (msgIn (New conf))) + length two_geneses
               ≤ cap (msgIn (New conf)) ∧
               length (buf (msgBcast (New conf))) + length two_geneses
               ≤ cap (msgBcast (New conf)))
    then Some
      (set_msgBcast
         {| cap := cap (msgBcast (New conf));
            buf := buf (msgBcast (New conf))
                   ++ ((λ g, bootstrapOf (New conf) g.1 g.2) <$> two_geneses) |}
         (set_msgIn
            {| cap := cap (msgIn (New conf));
               buf := buf (msgIn (New conf))
                      ++ ((λ g, bootstrapOf (New conf) g.1 g.2) <$> two_geneses) |}
            (set_futs (futs (New conf)
                       ++ ((λ g, pendingFor g.2) <$> two_geneses)) (New conf))))
    else None.
Proof.
  apply (SetGenesis_fifo_bounded two_geneses (New conf)); simpl; lia.
Defined.

Lemma fresh_engine_capacities_witness :
  is_Some (run (LStep <$> two_votes) (New conf)).
Proof.
  apply (proj1 (fresh_engine_capacities conf) two_votes). simpl. lia.
Defined.

Lemma Step_then_pass_witness :
  (Step (vote Message_PREPARE 2);; Start_select SrcMsgIn) (New conf) =
    handleMessage (vote Message_PREPARE 2)
      (set_msgIn {| cap := cap (msgIn (New conf)); buf := [] |} (New conf)).
Proof.
  apply (Step_then_pass (vote Message_PREPARE 2) (New conf)).
  - simpl. lia.
  - reflexivity.
Defined.

Lemma SetTimeout_then_pass_witness :
  (SetTimeout 5%Z;; Start_select SrcConfCh) (New conf) =
    handleConfigChange (timeoutChange 5%Z)
      (set_confCh {| cap := cap (confCh (New conf)); buf := [] |} (New conf)).
Proof.
  apply (SetTimeout_then_pass 5%Z (New conf)).
  - simpl. lia.
  - reflexivity.
Defined.

Lemma SetGenesis_then_pass_witness :
  Start_select SrcMsgIn (after (take 1 scenario) (New conf)) =
    handleMessage (bootstrapOf (New conf) (Some genesis) [])
      (set_msgBcast
         (push (bootstrapOf (New conf) (Some genesis) []) (msgBcast (New conf)))
         (set_msgIn {| cap := cap (msgIn (New conf)); buf := [] |}
            (set_futs (futs (New conf) ++ [pendingFor []]) (New conf)))).
Proof.
  apply (SetGenesis_then_pass (Some genesis) [] (New conf) 0).
  - reflexivity.
  - vm_compute. reflexivity.
Defined.

Lemma ProposeTxs_does_not_wake_the_loop_witness :
  idle (after (LProposeTxs <$> two_batches) (New conf)) ∧
  ∀ s, Start_select s (after (LProposeTxs <$> two_batches) (New conf)) = None.
Proof.
  apply (ProposeTxs_does_not_wake_the_loop two_batches (New conf)).
  - repeat split; try reflexivity. intros d Hd. discriminate Hd.
  - vm_compute. reflexivity.
Defined.

Lemma independent_calls_commute_witness :
  run [LStep (vote Message_PREPARE 2); LSetTimeout 5%Z] (New conf) =
  run [LSetTimeout 5%Z; LStep (vote Message_PREPARE 2)] (New conf).
Proof.
  apply (independent_calls_commute (LStep (vote Message_PREPARE 2))
           (LSetTimeout 5%Z) (New conf)).
  reflexivity.
Defined.

Lemma queues_stay_bounded_witness :
  capacities z_end = (16, 16, 16, 16, 8) ∧ bounded z_end.
Proof.
  apply (queues_stay_bounded conf scenario z_end). vm_compute. reflexivity.
Defined.

Lemma Step_SetGenesis_order_matters_witness :
  run [LStep (vote Message_PREPARE 2); LSetGenesis (Some genesis) []] (New conf)
    ≠ run [LSetGenesis (Some genesis) []; LStep (vote Message_PREPARE 2)]
        (New conf).
Proof.
  apply (Step_SetGenesis_order_matters (vote Message_PREPARE 2) (Some genesis)
           [] (New conf)).
  - simpl. lia.
  - simpl. lia.
  - intros E. discriminate E.
Defined.

Lemma SetGenesis_sender_is_configured_key_witness :
  identity z_genesis =
    (cfgKeyPair conf, cfgFSM conf, cfgLogger conf,
     HasherClone (bcHasher (cfgBlockchain conf))) ∧
  last (buf (msgIn (after [LSetGenesis (Some genesis') batch] z_genesis))) =
    Some {| msgType := Message_BOOTSTRAP; msgBlock := Some genesis';
            msgTxs := batch; msgFrom := kpPublicKey (cfgKeyPair conf) |}.
Proof.
  apply (SetGenesis_sender_is_configured_key conf (take 2 scenario) z_genesis
           (Some genesis') batch 1).
  - vm_compute. reflexivity.
  - vm_compute. reflexivity.
Defined.

Lemma calls_alone_change_no_state_witness :
  roundTimeout (after calls_only (New conf)) = defaultRoundTimeout ∧
  bcBlocks (bc (after calls_only (New conf))) =
    bcBlocks (cfgBlockchain conf) ∧
  buf (exec (after calls_only (New conf))) = [] ∧
  fsmCalls (after calls_only (New conf)) =
    [CallInit (asTxStore (cfgBlockchain conf))].
Proof.
  apply (calls_alone_change_no_state conf calls_only).
  - repeat constructor.
  - vm_compute. reflexivity.
Defined.

Lemma default_validator_installed_witness :
  let z := after (take 2 scenario) (New conf_validating) in
  (bcBlocks (bc (New conf_validating)) = bcBlocks chain_validating ∧
   bcGetTXO (bc (New conf_validating)) = bcGetTXO chain_validating) ∧
  bcValidator (bc z) = Some defaultBlockValidator ∧
  bcHasher (bc z) = bcHasher chain_validating.
Proof.
  apply (default_validator_installed conf_validating (take 2 scenario)
           (after (take 2 scenario) (New conf_validating))).
  vm_compute. reflexivity.
Defined.

End Witnesses.
